(** * A shallow embedding of [actionAngleSphericalInverse]
    (galpy/actionAngle/actionAngleSphericalInverse.py).

    Floating-point values are embedded as exact rationals [Q]; NaN and
    infinities are outside the embedding.  The numerical collaborators of the
    engine (the forward action-angle solver, the isochrone helper, the
    least-squares optimiser and the auxiliary-angle function [_anglera] with
    its derivative [_danglera]) enter as parameters: the definitions below
    embed the control flow and the array bookkeeping of the source around
    them. *)

From Stdlib Require Import QArith Qabs Qround QOrderedType Qminmax List Bool Lia Lqa ZArith.
Import ListNotations.
Open Scope Q_scope.

(** Exceptions the engine raises. *)
Inductive PyExc : Type :=
| NotImplementedError
| ValueError
| UnboundLocalError
| IndexError
| ZeroDivisionError.

(** A Python computation that returns a value or raises. *)
Inductive result (A : Type) : Type :=
| Ok (a : A)
| Raise (e : PyExc).
Arguments Ok {A} a.
Arguments Raise {A} e.

Definition bind {A B : Type} (m : result A) (k : A -> result B) : result B :=
  match m with
  | Ok a => k a
  | Raise e => Raise e
  end.

Notation "x <- m ;; k" := (bind m (fun x => k))
  (at level 61, m at next level, right associativity).

(** The float comparison [x < y]. *)
Definition Qlt_bool (x y : Q) : bool := negb (Qle_bool y x).

(** [numpy.sign] on a float. *)
Definition Qsign (x : Q) : Q :=
  if Qlt_bool 0 x then 1 else if Qlt_bool x 0 then -1 else 0.

(** Python's float modulus [x % y] (result has the sign of [y]). *)
Definition Qmod (x y : Q) : Q := x - y * inject_Z (Qfloor (x / y)).

(** [numpy.pi] as the double it is: 884279719003555 / 2^48. *)
Definition pi_f : Q := Qmake 884279719003555 281474976710656.

(** The angle difference wrapped into [-pi, pi):
    [(x + numpy.pi) % (2.0 * numpy.pi) - numpy.pi]. *)
Definition wrap (x : Q) : Q := Qmod (x + pi_f) (2 * pi_f) - pi_f.

(** Arithmetic mean of a row ([numpy.mean] / [numpy.nanmean] without NaN). *)
Definition mean (l : list Q) : Q :=
  fold_right Qplus 0 l / inject_Z (Z.of_nat (length l)).

(** ** Isochrone matching ([__init__], lines 209-218, and
    [actionAngleSphericalInverseSingle.__init__], lines 1689-1698). *)
Module IsochroneMatch.

(** [ampb = L2*Omegaz*(Omegar-Omegaz)/(2*Omegaz-Omegar)**2].  When the
    denominator vanishes the numerator is [L2*Omegaz**2 >= 0], so numpy's
    [inf]/[nan] and Q's [x/0 = 0] agree on the test [ampb < 0]. *)
Definition ampb (L2 Omegar Omegaz : Q) : Q :=
  L2 * Omegaz * (Omegar - Omegaz) / ((2 * Omegaz - Omegar) * (2 * Omegaz - Omegar)).

(** Batch construction: one [(L2, Omegar, Omegaz)] per (E,L) node;
    [if numpy.any(ampb < 0.0): raise NotImplementedError(...)]. *)
Definition check_nodes (nodes : list (Q * Q * Q)) : result unit :=
  if existsb (fun '(L2, Or, Oz) => Qlt_bool (ampb L2 Or Oz) 0) nodes
  then Raise NotImplementedError
  else Ok tt.

(** Single-torus construction: [self._OmegazoverOmegar = self._Omegaz / self._Omegar],
    then [ampb = ... / (2.0*self._Omegaz - self._Omegar)**2.0] and
    [if ampb < 0.0: raise NotImplementedError(...)].  [Omegar] and [Omegaz]
    may be passed in by the caller as Python floats, whose division by zero
    raises [ZeroDivisionError]. *)
Definition check_single (L2 Omegar Omegaz : Q) : result unit :=
  if Qeq_bool Omegar 0 then Raise ZeroDivisionError
  else if Qeq_bool (2 * Omegaz - Omegar) 0 then Raise ZeroDivisionError
  else if Qlt_bool (ampb L2 Omegar Omegaz) 0 then Raise NotImplementedError else Ok tt.

End IsochroneMatch.

(** ** Point transformation ([__init__], lines 248-276, and
    [_setup_pointtransform], lines 369-521). *)
Module PointTransform.

(** [numpy.polynomial.polynomial.polyval]: coefficients in increasing degree. *)
Definition polyval (c : list Q) (x : Q) : Q :=
  fold_right (fun a acc => a + x * acc) 0 c.

Fixpoint polyder_aux (k : nat) (c : list Q) : list Q :=
  match c with
  | [] => []
  | a :: c' => (inject_Z (Z.of_nat k) * a) :: polyder_aux (S k) c'
  end.

(** [polynomial.polyder(c, m=1)]; a constant differentiates to [[0]]. *)
Definition polyder (c : list Q) : list Q :=
  match c with
  | [] | [_] => [0]
  | _ :: c' => polyder_aux 1 c'
  end.

(** One row of [_pt_coeffs], [_pt_deriv_coeffs], [_pt_deriv2_coeffs]. *)
Record ptrow : Type := mk_ptrow {
  pt_coeffs : list Q;
  pt_deriv_coeffs : list Q;
  pt_deriv2_coeffs : list Q
}.

(** The fixed branch taken when the fitted transform is not used:
    [_pt_coeffs[:,1] = 1.0 + 0.3], [_pt_coeffs[:,3] = 1.0 - _pt_coeffs[:,1]]. *)
Definition weird_row : ptrow :=
  let c1 := 1 + (3 # 10) in
  let c3 := 1 - c1 in
  {| pt_coeffs := [0; c1; 0; c3];
     pt_deriv_coeffs := [c1; 0; 3 * c3];
     pt_deriv2_coeffs := [0; 6 * c3] |}.

(** Small-[Jr] branch of [_setup_pointtransform]: coefficients [0,1,0,...],
    derivative coefficients all set to [1.0], second derivative all [0.0]. *)
Definition identity_row (pt_deg : nat) : ptrow :=
  {| pt_coeffs := 0 :: 1 :: repeat 0 (pt_deg - 1);
     pt_deriv_coeffs := repeat 1 pt_deg;
     pt_deriv2_coeffs := repeat 0 (pt_deg - 1) |}.

(** [ccoeffs = numpy.zeros(pt_deg+1); ccoeffs[1] = 1.0]. *)
Definition linear_coeffs (pt_deg : nat) : list Q := 0 :: 1 :: repeat 0 (pt_deg - 1).

(** The four boundary conditions of the claim, within [tol]. *)
Definition boundary_ok (tol : Q) (c : list Q) : Prop :=
  Qabs (polyval c 0) <= tol /\ Qabs (polyval c 1 - 1) <= tol /\
  Qabs (polyval (polyder c) 0 - 1) <= tol /\ Qabs (polyval (polyder c) 1 - 1) <= tol.

End PointTransform.

(** ** The angle table ([_create_rgrid], lines 525-783). *)
Module Rgrid.

(** [numpy.linspace(a, b, n)]. *)
Definition linspace (a b : Q) (n : nat) : list Q :=
  match n with
  | O => []
  | S O => [a]
  | _ => map (fun k => a + inject_Z (Z.of_nat k) * ((b - a) / inject_Z (Z.of_nat (n - 1))))
             (seq 0 n)
  end.

(** [self._thetaa = numpy.linspace(0.0, 2.0*numpy.pi*(1.0-1.0/nta), nta)]. *)
Definition thetaa (nta : nat) : list Q :=
  linspace 0 (2 * pi_f * (1 - 1 / inject_Z (Z.of_nat nta))) nta.

(** Python's [row[i] = v] for an index inside the row. *)
Fixpoint set_nth (i : nat) (v : Q) (l : list Q) : list Q :=
  match l, i with
  | [], _ => []
  | _ :: l', O => v :: l'
  | x :: l', S i' => x :: set_nth i' v l'
  end.

Fixpoint argmin_go (best_i : nat) (best : Q) (i : nat) (l : list Q) : nat :=
  match l with
  | [] => best_i
  | x :: l' => if Qlt_bool x best then argmin_go i x (S i) l' else argmin_go best_i best (S i) l'
  end.

(** [numpy.nanargmin] on a row without NaN: the first index of the minimum. *)
Definition argmin (l : list Q) : nat :=
  match l with [] => O | x :: l' => argmin_go O x 1 l' end.

(** [numpy.nanargmax] on a row without NaN: the first index of the maximum. *)
Definition argmax (l : list Q) : nat := argmin (map Qopp l).

(** One torus as [_create_rgrid] sees it: the true and the point-transformed
    turning points, and the auxiliary angle [_anglera] (with [vrneg=False])
    and its derivative [_danglera] as functions of the auxiliary radius. *)
Record torus : Type := mk_torus {
  t_rperi : Q;
  t_rap : Q;
  t_ptrperi : Q;
  t_ptrap : Q;
  t_ang : Q -> Q;
  t_dang : Q -> Q
}.

(** The per-node constants of the vectorised iteration. *)
Record nparam : Type := mk_nparam {
  p_ang : Q -> Q;
  p_dang : Q -> Q;
  p_mta : Q;        (* mta: the target angle *)
  p_rperi : Q;      (* rperigrid *)
  p_rap : Q;        (* rapgrid *)
  p_maxdr : Q;      (* maxdr *)
  p_trymin0 : Q;    (* the bisection start from below *)
  p_dr0 : Q         (* the initial bisection step *)
}.

(** The per-node state: [rgrid], [ta], [unconv], [tryr_min], [dr]. *)
Record node : Type := mk_node {
  n_r : Q;
  n_ta : Q;
  n_un : bool;
  n_trymin : Q;
  n_dr : Q
}.

Definition grid := list (list (nparam * node)).

Definition map_grid (f : nparam -> node -> node) (g : grid) : grid :=
  map (map (fun pn => (fst pn, f (fst pn) (snd pn)))) g.

Definition any_unconv (g : grid) : bool :=
  existsb (existsb (fun pn => n_un (snd pn))) g.

Section Create.
Variable nta maxiter : nat.
Variable angle_tol : Q.
Variable bisect : bool.

Definition half : nat := Nat.div nta 2.

(** [rgrid = numpy.linspace(0.0, 1.0, 2*nta)]. *)
Definition grid01 : list Q := linspace 0 1 (2 * nta).

(** The coarse scan: [rta] at the radii [rs] spanning the point-transformed
    turning points. *)
Definition rta (t : torus) : list Q :=
  map (fun x => t_ang t (x * (t_ptrap t - t_ptrperi t - 2 * (1 # 100000000))
                         + (t_ptrperi t + (1 # 100000000)))) grid01.

(** [da] of the bisection start, before masking. *)
Definition da_row (t : torus) (th : Q) : list Q :=
  map (fun a => wrap (a - th)) (rta t).

(** [numpy.nanmax(numpy.fabs(da))] over the whole array. *)
Definition damax (ts : list torus) : Q :=
  fold_right Qmax 0
    (flat_map (fun t => flat_map (fun th => map Qabs (da_row t th)) (thetaa nta)) ts).

(** The Newton start: [cindx] is the nearest coarse angle, mapped onto the
    true turning points. *)
Definition newton_guess (t : torus) (th : Q) : Q :=
  let cindx := argmin (map (fun a => Qabs (wrap (a - th))) (rta t)) in
  nth cindx grid01 0 * (t_rap t - t_rperi t - 2 * (1 # 100000000)) + (t_rperi t + (1 # 100000000)).

(** The bisection start: [da[da >= 0.0] = -numpy.nanmax(numpy.fabs(da)) - 0.1],
    [cindx = numpy.nanargmax(da, axis=2)], mapped onto the point-transformed
    turning points. *)
Definition bisect_guess (dmax : Q) (t : torus) (th : Q) : Q :=
  let da := map (fun d => if Qle_bool 0 d then - dmax - (1 # 10) else d) (da_row t th) in
  nth (argmax da) grid01 0 * (t_ptrap t - t_ptrperi t - 2 * (1 # 100000000))
    + (t_ptrperi t + (1 # 100000000)).

(** The table of one torus before the iteration: the guesses with
    [rgrid[:, 0] = self._pt_rperi] and [rgrid[:, nta//2] = self._pt_rap]. *)
Definition start_radii (t : torus) : list Q :=
  set_nth half (t_ptrap t) (set_nth 0 (t_ptrperi t) (map (newton_guess t) (thetaa nta))).

(** The constants of node [k] of torus [t]. *)
Definition init_param (dmax : Q) (t : torus) (k : nat) : nparam :=
  let mta := nth k (thetaa nta) 0 in
  {| p_ang := t_ang t; p_dang := t_dang t; p_mta := mta;
     p_rperi := t_rperi t; p_rap := t_rap t;
     p_maxdr := (t_rap t - t_rperi t) / inject_Z (Z.of_nat nta);
     p_trymin0 := bisect_guess dmax t mta;
     p_dr0 := 2 / inject_Z (Z.of_nat (2 * nta - 1)) * (t_ptrap t - t_ptrperi t) |}.

(** The start state of node [k]: [ta = _anglera(rgrid, ...)];
    [unconv[:, 0] = False], [unconv[:, nta//2:] = False], and
    [unconv[unconv] = numpy.fabs(dta) > self._angle_tol]. *)
Definition init_node (t : torus) (k : nat) : node :=
  let mta := nth k (thetaa nta) 0 in
  let r := nth k (start_radii t) 0 in
  let ta := t_ang t r in
  {| n_r := r; n_ta := ta;
     n_un := negb (k =? 0)%nat && (k <? half)%nat && Qlt_bool angle_tol (Qabs (wrap (ta - mta)));
     n_trymin := 0; n_dr := 0 |}.

Definition init_row (dmax : Q) (t : torus) : list (nparam * node) :=
  map (fun k => (init_param dmax t k, init_node t k)) (seq 0 nta).

(** One Newton-Raphson iteration at a node, in the order of the source:
    derivative, residual, clipped step, clamping into [[rperi, rap]],
    convergence test on the residual, new angle. *)
Definition newton_node (p : nparam) (n : node) : node :=
  if n_un n then
    let dtadr := p_dang p (n_r n) in
    let dta := wrap (n_ta n - p_mta p) in
    let dr0 := - dta / dtadr in
    let dr := if Qlt_bool (p_maxdr p) (Qabs dr0) then Qsign dr0 * p_maxdr p else dr0 in
    let r1 := n_r n + dr in
    let r2 := if Qlt_bool (p_rap p) r1 then p_rap p else r1 in
    let r3 := if Qlt_bool r2 (p_rperi p) then p_rperi p else r2 in
    let un := Qlt_bool angle_tol (Qabs dta) in
    {| n_r := r3; n_ta := if un then p_ang p r3 else n_ta n; n_un := un;
       n_trymin := n_trymin n; n_dr := n_dr n |}
  else n.

(** [while not self._bisect:] ... [cntr += 1]; break when nothing is
    unconverged or when [cntr > maxiter] (after a warning). *)
Fixpoint newton_loop (fuel cntr : nat) (g : grid) : nat * grid :=
  match fuel with
  | O => (cntr, g)
  | S fuel' =>
      let g' := map_grid newton_node g in
      let cntr' := S cntr in
      if negb (any_unconv g') then (cntr', g')
      else if (maxiter <? cntr')%nat then (cntr', g')
      else newton_loop fuel' cntr' g'
  end.

(** Entering the bisection: [tryr_min] for the unconverged nodes, [dr] for
    all. *)
Definition bisect_start (p : nparam) (n : node) : node :=
  {| n_r := n_r n; n_ta := n_ta n; n_un := n_un n;
     n_trymin := if n_un n then p_trymin0 p else n_trymin n; n_dr := p_dr0 p |}.

(** One bisection iteration at a node: [dr *= 0.5] everywhere, then for the
    unconverged nodes the new radius, angle, lower bound and convergence. *)
Definition bisect_node (p : nparam) (n : node) : node :=
  let dr := n_dr n * (1 # 2) in
  if n_un n then
    let r := n_trymin n + dr in
    let newta := Qmod (p_ang p r + 2 * pi_f) (2 * pi_f) in
    let dta := wrap (newta - p_mta p) in
    {| n_r := r; n_ta := newta; n_un := Qlt_bool angle_tol (Qabs dta);
       n_trymin := if Qlt_bool newta (p_mta p) then r else n_trymin n; n_dr := dr |}
  else
    {| n_r := n_r n; n_ta := n_ta n; n_un := n_un n; n_trymin := n_trymin n; n_dr := dr |}.

Fixpoint bisect_loop (fuel cntr : nat) (g : grid) : grid :=
  match fuel with
  | O => g
  | S fuel' =>
      let g' := map_grid bisect_node g in
      let cntr' := S cntr in
      if negb (any_unconv g') then g'
      else if (maxiter <? cntr')%nat then g'
      else bisect_loop fuel' cntr' g'
  end.

(** [rgrid[:, nta//2+1:] = rgrid[:, 1:nta//2][:, ::-1]] with numpy's
    assignment rules: equal lengths, or a single column broadcast, or a
    [ValueError]. *)
Definition reflect_row (row : list Q) : result (list Q) :=
  let lhs_len := (length row - (half + 1))%nat in
  let rhs := rev (firstn (half - 1) (skipn 1 row)) in
  if (lhs_len =? length rhs)%nat then Ok (firstn (half + 1) row ++ rhs)
  else if (length rhs =? 1)%nat then Ok (firstn (half + 1) row ++ repeat (hd 0 rhs) lhs_len)
  else Raise ValueError.

Fixpoint mapM {A B : Type} (f : A -> result B) (l : list A) : result (list B) :=
  match l with
  | [] => Ok []
  | x :: l' => y <- f x ;; ys <- mapM f l' ;; Ok (y :: ys)
  end.

(** [_create_rgrid]: the stored table [self._rgrid], one row per torus.
    Without tori, [pyplot.plot(rs[0], rta[0], ".")] raises [IndexError]. *)
Definition create_rgrid (ts : list torus) : result (list (list Q)) :=
  match ts with [] => Raise IndexError | _ =>
  let g0 := map (init_row (damax ts)) ts in
  let '(cntr, g1) := if bisect then (O, g0) else newton_loop (S maxiter) O g0 in
  let g2 := if bisect || (maxiter <? cntr)%nat
            then bisect_loop (S maxiter) O (map_grid bisect_start g1)
            else g1 in
  mapM (fun row => reflect_row (map (fun pn => n_r (snd pn)) row)) g2
  end.

End Create.
End Rgrid.

(** ** Refined actions and frequencies ([__init__], lines 305-312). *)
Module Refine.

(** What [__init__] stores for one torus. *)
Record stored : Type := mk_stored {
  s_jr : Q;
  s_jr_orig : Q;
  s_Omegar : Q;
  s_Omegar_orig : Q;
  s_Omegaz : Q;
  s_Omegaz_orig : Q;
  s_OmegazoverOmegar : Q
}.

(** One torus: the forward [jr], [Omegar], [Omegaz] and the rows [jra] and
    [djradjr] over the [nta] table nodes.  [self._OmegazoverOmegar] was set
    from the forward frequencies before the mapping. *)
Definition refine (jr Omegar Omegaz : Q) (jra djradjr : list Q) : stored :=
  let OzOr := Omegaz / Omegar in
  let jr_orig := jr in                       (* self._jr_orig = copy.copy(self._jr) *)
  let jr' := mean jra in                     (* self._jr = numpy.mean(self._jra, axis=1) *)
  let Or_orig := Omegar in
  let Oz_orig := Omegaz in
  let Or' := Omegar / mean djradjr in        (* self._Omegar /= numpy.nanmean(...) *)
  let Oz' := OzOr * Or' in                   (* self._Omegaz = ratio * self._Omegar *)
  {| s_jr := jr'; s_jr_orig := jr_orig; s_Omegar := Or'; s_Omegar_orig := Or_orig;
     s_Omegaz := Oz'; s_Omegaz_orig := Oz_orig; s_OmegazoverOmegar := OzOr |}.

(** The vectorised update over all tori. *)
Definition refine_all (l : list (Q * Q * Q * list Q * list Q)) : list stored :=
  map (fun '(jr, Or, Oz, jra, djr) => refine jr Or Oz jra djr) l.

End Refine.

(** ** Fourier post-processing ([__init__], lines 351-358). *)
Module Fourier.

(** [x[numpy.fabs(x) < floor] = 0.0] on one entry. *)
Definition floor_zero (fl x : Q) : Q := if Qlt_bool (Qabs x) fl then 0 else x.

(** [numpy.atleast_2d(self._nforSn)[:, 1:]] for [nta] table nodes. *)
Definition harmonics (nta : nat) : list Q :=
  map (fun k => inject_Z (Z.of_nat k)) (seq 1 (Nat.div nta 2)).

Definition divide_by (row ns : list Q) : list Q :=
  map (fun '(x, n) => x / n) (combine row ns).

(** From the rows [nSn], [dSndJr], [dSndLish] of the transforms (real part of
    [rfft(...)[:, 1:]] divided by [nta]) to the stored coefficients. *)
Definition post_process (setup_interp : bool) (nta : nat) (nSn dSndJr dSndLish : list Q)
    : list Q * list Q * list Q :=
  let nSn1 := if setup_interp then map (floor_zero (1 # 10000000000000000)) nSn else nSn in
  let dJ1 := if setup_interp then map (floor_zero (1 # 1000000000000000)) dSndJr else dSndJr in
  let dL1 := if setup_interp then map (floor_zero (1 # 1000000000000000)) dSndLish else dSndLish in
  (nSn1, divide_by dJ1 (harmonics nta), divide_by dL1 (harmonics nta)).

End Fourier.

(** ** Evaluation ([_evaluate], [_xvFreqs], [_Freqs], lines 1275-1564). *)
Module Engine.

(** The Python locals [tE], [tnSn], [tdSndJr], ... bound by the torus
    lookup of [_xvFreqs]. *)
Record tlocals : Type := mk_tlocals {
  tl_E : Q;
  tl_nSn : list Q;
  tl_dSndJr : list Q;
  tl_dSndLish : list Q;
  tl_OmegazoverOmegar : Q;
  tl_Omegar : Q;
  tl_Omegaz : Q;
  tl_amp : Q;
  tl_b : Q;
  tl_ptcoeffs : list Q;
  tl_ptderivcoeffs : list Q;
  tl_rperi : Q;
  tl_rap : Q;
  tl_ptrperi : Q;
  tl_ptrap : Q
}.

(** One stored torus: [self._jr[i]], [self._internal_Ls[i]], [self._Ls[i]]
    and the rest of its row. *)
Record trec : Type := mk_trec {
  tr_jr : Q;
  tr_L : Q;
  tr_Ls : Q;
  tr_locals : tlocals
}.

Record engine : Type := mk_engine {
  e_interp : bool;
  e_tori : list trec
}.

(** End of [__init__]: [self._interp = True] (and the [_setup_interp]
    scaffold) when [setup_interp], otherwise [self._interp = False]. *)
Definition set_interp (setup_interp : bool) (e : engine) : engine :=
  {| e_interp := setup_interp; e_tori := e_tori e |}.

(** [indx = numpy.nanargmin(numpy.fabs(jr - self._jr))]; numpy raises
    [ValueError] on an empty array. *)
Definition nearest (tori : list trec) (jr : Q) : result trec :=
  match tori with
  | [] => Raise ValueError
  | t0 :: _ => Ok (nth (Rgrid.argmin (map (fun t => Qabs (jr - tr_jr t)) tori)) tori t0)
  end.

Definition tol10 : Q := 1 # 10000000000.

(** The check of [_xvFreqs] against [self._internal_Ls[indx]]. *)
Definition lookup (tori : list trec) (jr jphi jz : Q) : result trec :=
  t <- nearest tori jr ;;
  if Qlt_bool tol10 (Qabs (jr - tr_jr t)) || Qlt_bool tol10 (Qabs (jz + Qabs jphi - tr_L t))
  then Raise ValueError
  else Ok t.

(** The check of [_Freqs], against [self._Ls[indx]]. *)
Definition lookup_Ls (tori : list trec) (jr jphi jz : Q) : result trec :=
  t <- nearest tori jr ;;
  if Qlt_bool tol10 (Qabs (jr - tr_jr t)) || Qlt_bool tol10 (Qabs (jz + Qabs jphi - tr_Ls t))
  then Raise ValueError
  else Ok t.

(** Reading a Python local: unbound after the [else: pass] branch. *)
Definition read_local {A : Type} (x : option A) : result A :=
  match x with
  | Some a => Ok a
  | None => Raise UnboundLocalError
  end.

Section Eval.
(** Steps 2-6 of the evaluation (the Newton-Raphson solve for [anglera], the
    auxiliary action and angles, the isochrone inverse and, with [point], the
    inverse point transformation), from the torus locals and the arguments
    [jr, jphi, jz, angler, anglephi, anglez] to [R, vR, vT, z, vz, phi]. *)
Variable xv_core : tlocals -> Q -> Q -> Q -> list Q -> list Q -> list Q -> bool -> list (list Q).

(** [_xvFreqs]: both returns end in
    [tOmegar, numpy.sign(jphi) * tOmegaz, tOmegaz]. *)
Definition xvFreqs (e : engine) (jr jphi jz : Q) (angler anglephi anglez : list Q)
    (point : bool) : result (list (list Q) * Q * Q * Q) :=
  locals <- (if negb (e_interp e)
             then (t <- lookup (e_tori e) jr jphi jz ;; Ok (Some (tr_locals t)))
             else Ok None (* pass *)) ;;
  tl <- read_local locals ;;
  Ok (xv_core tl jr jphi jz angler anglephi anglez point,
      tl_Omegar tl, Qsign jphi * tl_Omegaz tl, tl_Omegaz tl).

(** [_evaluate]: [self._xvFreqs(...)[:6]]. *)
Definition evaluate (e : engine) (jr jphi jz : Q) (angler anglephi anglez : list Q)
    : result (list (list Q)) :=
  r <- xvFreqs e jr jphi jz angler anglephi anglez true ;;
  let '(xv, _, _, _) := r in Ok xv.

End Eval.

(** [_Freqs]. *)
Definition Freqs (e : engine) (jr jphi jz : Q) : result (Q * Q * Q) :=
  locals <- (if negb (e_interp e)
             then (t <- lookup_Ls (e_tori e) jr jphi jz ;;
                   Ok (Some (tl_Omegar (tr_locals t), tl_Omegaz (tr_locals t))))
             else Ok None (* pass *)) ;;
  tOmegar <- read_local (option_map fst locals) ;;
  tOmegaz <- read_local (option_map snd locals) ;;
  Ok (tOmegar, Qsign jphi * tOmegaz, tOmegaz).

End Engine.

(** ** The (E, L) grids of [__init__] (lines 117-165 and 186-187). *)
Module Grid.

(** [numpy.tile(v, (n, 1))]: [n] rows, each a copy of [v]. *)
Definition tile (v : list Q) (n : nat) : list (list Q) := repeat v n.

(** [.T] of a rectangular array. *)
Definition transpose (m : list (list Q)) : list (list Q) :=
  match m with
  | [] => []
  | r :: _ => map (fun j => map (fun row => nth j row 0) m) (seq 0 (length r))
  end.

(** [.flatten()], row-major. *)
Definition flatten (m : list (list Q)) : list Q := concat m.

(** An elementwise numpy operation on two arrays of the same shape. *)
Definition zip_with (f : Q -> Q -> Q) (a b : list Q) : list Q :=
  map (fun '(x, y) => f x y) (combine a b).

(** [if not setup_interp]: the lengths must agree, and the internal grids
    are copies of [Es] and [Ls]. *)
Definition grid_direct (Es Ls : list Q) : result (list Q * list Q) :=
  if negb (length Es =? length Ls)%nat then Raise ValueError
  else Ok (Es, Ls).

Section Interp.
(** [_evaluatePotentials(pot, R, 0)], [vcirc(pot, R)] and [rl(pot, L)]. *)
Variable Phi : Q -> Q.
Variable vcirc : Q -> Q.
Variable rl : Q -> Q.

Definition Lmin : Q := 1 # 100.

(** [self._Ls = numpy.linspace(self._Lmin, self._Rmax*vcirc(self._pot, self._Rmax), self._nL)]. *)
Definition Ls_grid (Rmax : Q) (nL : nat) : list Q := Rgrid.linspace Lmin (Rmax * vcirc Rmax) nL.

(** [self._ERRL = _evaluatePotentials(pot, RL, 0) + Ls**2/2/RL**2] with
    [RL = [rl(pot, l) for l in Ls]]: the energy of the circular orbit. *)
Definition ERRL (Ls : list Q) : list Q :=
  let RL := map rl Ls in
  zip_with (fun R l => Phi R + l * l / 2 / (R * R)) RL Ls.

(** [self._ERRa = _evaluatePotentials(pot, Rinf, 0) + Ls**2/2/Rinf**2]. *)
Definition ERRa (Rinf : Q) (Ls : list Q) : list Q :=
  map (fun l => Phi Rinf + l * l / 2 / (Rinf * Rinf)) Ls.

(** [self._internal_Es]: [tile(linspace(0,1,nE), (nL,1)).flatten() *
    tile(ERRa-ERRL, (nE,1)).T.flatten() + tile(ERRL, (nE,1)).T.flatten()]. *)
Definition internal_Es (Rinf : Q) (nE : nat) (Ls : list Q) : list Q :=
  let nL := length Ls in
  zip_with Qplus
    (zip_with Qmult (flatten (tile (Rgrid.linspace 0 1 nE) nL))
                    (flatten (transpose (tile (zip_with Qminus (ERRa Rinf Ls) (ERRL Ls)) nE))))
    (flatten (transpose (tile (ERRL Ls) nE))).

(** [self._internal_Ls = tile(self._Ls, (nE,1)).T.flatten()]. *)
Definition internal_Ls (nE : nat) (Ls : list Q) : list Q := flatten (transpose (tile Ls nE)).

(** The grid of the [setup_interp] branch: [Ls], [internal_Es], [internal_Ls]. *)
Definition grid_interp (Rmax Rinf : Q) (nE nL : nat) : list Q * list Q * list Q :=
  let Ls := Ls_grid Rmax nL in
  (Ls, internal_Es Rinf nE Ls, internal_Ls nE Ls).

End Interp.

(** [vrls[::self._nE] = 0.0]; a zero step raises. *)
Definition zero_step (step : nat) (v : list Q) : result (list Q) :=
  if (step =? 0)%nat then Raise ValueError
  else Ok (map (fun '(i, x) => if (i mod step =? 0)%nat then 0 else x)
               (combine (seq 0 (length v)) v)).

(** The engine as [__init__] stores it without interpolation: per torus
    [self._jr[i]], [self._internal_Ls[i]], [self._Ls[i]] and the rest of its
    row. *)
Definition engine_of (iLs Ls jrs : list Q) (locs : list Engine.tlocals) : Engine.engine :=
  {| Engine.e_interp := false;
     Engine.e_tori := map (fun '(jr, (l, (ls, tl))) => Engine.mk_trec jr l ls tl)
                          (combine jrs (combine iLs (combine Ls locs))) |}.

End Grid.

(** ** [actionAngleSphericalInverseSingle.__init__] (lines 1570-1799). *)
Module Single.

(** [if ntr == "auto": ntr = 128]. *)
Definition ntr_of (ntr : option nat) : nat :=
  match ntr with None => 128%nat | Some n => n end.

(** [x[::-1][a:-1]]. *)
Definition rev_slice (x : list Q) (a : nat) : list Q :=
  let r := rev x in firstn (length r - 1 - a) (skipn a r).

(** [x[a:] = rhs] with numpy's assignment rules (numpy copies an
    overlapping right-hand side first). *)
Definition assign_tail (x : list Q) (a : nat) (rhs : list Q) : result (list Q) :=
  let lhs_len := (length x - a)%nat in
  if (lhs_len =? length rhs)%nat then Ok (firstn a x ++ rhs)
  else if (length rhs =? 1)%nat then Ok (firstn a x ++ repeat (hd 0 rhs) lhs_len)
  else Raise ValueError.

(** [x[ntr//2+1:] = x[::-1][ntr//2:-1]], done for [solvera], [solvedta],
    [jra], [ora] and [dEdL]. *)
Definition reflect (ntr : nat) (x : list Q) : result (list Q) :=
  assign_tail x (Nat.div ntr 2 + 1) (rev_slice x (Nat.div ntr 2)).

Section Solve.
(** [optimize.brentq(f, lo, hi)] for the target angle [tra] and
    [optimize.newton(f, start, fprime)] ([None] when it raises
    [RuntimeError]). *)
Variable brentq : Q -> Q -> Q -> Q.
Variable newton : Q -> Q -> option Q.

(** The loop [for ii, tra in enumerate(thetara[:ntr//2+1])]: the radii
    [tr] stored in [solvera[ii]]; [tr] carries over from one node to the
    next. *)
Fixpoint solve_half (ntr : nat) (use_newton : bool) (rperi rap : Q) (ii : nat)
    (tras : list Q) (tr : Q) : list Q :=
  match tras with
  | [] => []
  | tra :: tras' =>
      let tr' :=
        if (ii =? 0)%nat then rperi
        else if (ii =? Nat.div ntr 2)%nat then rap
        else
          let tr0 := if use_newton && (ii =? Nat.div ntr 2 - 1)%nat then rap else tr in
          let '(use_brent, tr1) :=
            if use_newton then
              match newton tra tr0 with
              | Some r => (false, r)
              | None => (true, tr0)
              end
            else (true, tr0) in
          if use_brent then brentq tra tr1 rap else tr1 in
      tr' :: solve_half ntr use_newton rperi rap (S ii) tras' tr'
  end.

(** [self._solvera]: [numpy.empty_like(thetara)] holds [junk] beyond node
    [ntr//2] until the reflection. *)
Definition solvera (ntr : option nat) (use_newton : bool) (rperi rap : Q) (junk : list Q)
    : result (list Q) :=
  let n := ntr_of ntr in
  reflect n (solve_half n use_newton rperi rap 0 (firstn (Nat.div n 2 + 1) (Rgrid.thetaa n)) 0
             ++ junk).

End Solve.
End Single.

(** ** The radial-angle solve of [_xvFreqs] (lines 1378-1465). *)
Module AngleSolve.

(** Per input angle: [angler], [anglera], [tar], [unconv], [tryar_min]. *)
Record aelt : Type := mk_aelt {
  a_r : Q;
  a_ra : Q;
  a_tar : Q;
  a_un : bool;
  a_trymin : Q
}.

Section Solve.
(** [anglera + 2 sum(tdSndJr sin(nforSn anglera))] and its derivative
    [1 + 2 sum(nforSn tdSndJr cos(nforSn anglera))]. *)
Variable ta : Q -> Q.
Variable dta : Q -> Q.
Variable maxiter : nat.
Variable angle_tol : Q.
Variable bisect : bool.

(** [maxdar = 2.0 * numpy.pi / 101]. *)
Definition maxdar : Q := 2 * pi_f / 101.

(** [anglera = copy.copy(angler)], [tar], [unconv[unconv] = |dtar| > tol]. *)
Definition init_elt (ar : Q) : aelt :=
  let tar := ta ar in
  {| a_r := ar; a_ra := ar; a_tar := tar;
     a_un := Qlt_bool angle_tol (Qabs (wrap (tar - ar))); a_trymin := 0 |}.

(** One Newton-Raphson iteration on an unconverged angle. *)
Definition newton_elt (e : aelt) : aelt :=
  if a_un e then
    let danglear := dta (a_ra e) in
    let dtar := wrap (a_tar e - a_r e) in
    let dar := - dtar / danglear in
    let dar' := if Qlt_bool maxdar (Qabs dar) then Qsign dar * maxdar else dar in
    let ra := a_ra e + dar' in
    let un := Qlt_bool angle_tol (Qabs dtar) in
    {| a_r := a_r e; a_ra := ra; a_tar := if un then ta ra else a_tar e; a_un := un;
       a_trymin := a_trymin e |}
  else e.

Fixpoint newton_loop (fuel cntr : nat) (es : list aelt) : nat * list aelt :=
  match fuel with
  | O => (cntr, es)
  | S fuel' =>
      let es' := map newton_elt es in
      let cntr' := S cntr in
      if negb (existsb a_un es') then (cntr', es')
      else if (maxiter <? cntr')%nat then (cntr', es')
      else newton_loop fuel' cntr' es'
  end.

(** [tryar_min = numpy.zeros(numpy.sum(unconv))]. *)
Definition bisect_start (e : aelt) : aelt :=
  {| a_r := a_r e; a_ra := a_ra e; a_tar := a_tar e; a_un := a_un e;
     a_trymin := if a_un e then 0 else a_trymin e |}.

(** One bisection iteration on an unconverged angle, with the halved [dar]. *)
Definition bisect_elt (dar : Q) (e : aelt) : aelt :=
  if a_un e then
    let ra := a_trymin e + dar in
    let newtar := Qmod (ta ra + 2 * pi_f) (2 * pi_f) in
    let dtar := wrap (newtar - a_r e) in
    {| a_r := a_r e; a_ra := ra; a_tar := a_tar e;
       a_un := Qlt_bool angle_tol (Qabs dtar);
       a_trymin := if Qlt_bool newtar (a_r e) then ra else a_trymin e |}
  else e.

Fixpoint bisect_loop (fuel cntr : nat) (dar : Q) (es : list aelt) : list aelt :=
  match fuel with
  | O => es
  | S fuel' =>
      let dar' := dar * (1 # 2) in
      let es' := map (bisect_elt dar') es in
      let cntr' := S cntr in
      if negb (existsb a_un es') then es'
      else if (maxiter <? cntr')%nat then es'
      else bisect_loop fuel' cntr' dar' es'
  end.

(** The angles [anglera] solved for the input angles [angler]. *)
Definition solve (anglers : list Q) : list Q :=
  let es0 := map init_elt anglers in
  let '(cntr, es1) := if bisect then (O, es0) else newton_loop (S maxiter) O es0 in
  let es2 := if bisect || (maxiter <? cntr)%nat
             then bisect_loop (S maxiter) O (2 * pi_f) (map bisect_start es1)
             else es1 in
  map a_ra es2.

End Solve.
End AngleSolve.

(** ** Back from the auxiliary torus ([_xvFreqs], lines 1491-1521). *)
Module PointBack.
Import Engine.

(** [r = (trap-trperi)*polyval((ra-tptrperi)/(tptrap-tptrperi), tptcoeffs) + trperi]. *)
Definition pt_radius (tl : tlocals) (ra : Q) : Q :=
  (tl_rap tl - tl_rperi tl)
    * PointTransform.polyval (tl_ptcoeffs tl) ((ra - tl_ptrperi tl) / (tl_ptrap tl - tl_ptrperi tl))
  + tl_rperi tl.

(** [piprime]. *)
Definition pt_piprime (tl : tlocals) (ra : Q) : Q :=
  (tl_rap tl - tl_rperi tl) / (tl_ptrap tl - tl_ptrperi tl)
    * PointTransform.polyval (tl_ptderivcoeffs tl) ((ra - tl_ptrperi tl) / (tl_ptrap tl - tl_ptrperi tl)).

Section Back.
(** [numpy.sqrt]. *)
Variable sqrtf : Q -> Q.

(** From the isochrone phase-space point [(Ra, vRa, vTa, za, vza, phia)] to
    [(R, vR, vT, z, vz, phi)]. *)
Definition point_back (tl : tlocals) (jphi jz : Q) (Ra vRa vTa za vza phia : Q)
    : Q * Q * Q * Q * Q * Q :=
  let L := jz + Qabs jphi in
  let lowerl := sqrtf (1 - jphi * jphi / (L * L)) in
  let ra := sqrtf (Ra * Ra + za * za) in
  let sintheta := Ra / ra in
  let costheta := za / ra in
  let vra := sintheta * vRa + costheta * vza in
  let vta := costheta * vRa - sintheta * vza in
  let r := pt_radius tl ra in
  let piprime := pt_piprime tl ra in
  let vr := vra * piprime in
  let vt := vta * ra / r in
  let R := sintheta * r in
  let z := costheta * r in
  let vR := vr * sintheta + vt * costheta in
  let vz := vr * costheta - vt * sintheta in
  let vT := jphi / R in
  (R, vR, vT, z, vz, phia).

End Back.
End PointBack.

(** ** The candidate transform of [opt_func] in [_setup_pointtransform]
    (lines 412-430 and 474-478). *)
Module OptFunc.

(** The outcome of the coefficient assembly: the array, or the exception
    numpy raises ([IndexError] on [ccoeffs[3]], [ValueError] on a
    non-broadcastable [ccoeffs[4::] = coeffs]). *)
Inductive opt_result : Type :=
| OOk (c : list Q)
| OIndexError
| OValueError.

Definition qsum (l : list Q) : Q := fold_right Qplus 0 l.

(** [ccoeffs = numpy.zeros(pt_deg+1)]; [ccoeffs[1] = 1.0];
    [ccoeffs[3] = -numpy.sum(polyder(numpy.hstack(([0.0, 0.0], coeffs)))[1:])];
    [ccoeffs[2] = -numpy.sum(coeffs) - ccoeffs[3]]; [ccoeffs[4::] = coeffs]. *)
Definition ccoeffs (pt_deg : nat) (coeffs : list Q) : opt_result :=
  let c0 := repeat 0 (pt_deg + 1) in
  if negb (1 <? pt_deg + 1)%nat then OIndexError else
  let c1 := Rgrid.set_nth 1 1 c0 in
  let v3 := - qsum (tl (PointTransform.polyder (0 :: 0 :: coeffs))) in
  if negb (3 <? pt_deg + 1)%nat then OIndexError else
  let c2 := Rgrid.set_nth 3 v3 c1 in
  let v2 := - qsum coeffs - nth 3 c2 0 in
  let c3 := Rgrid.set_nth 2 v2 c2 in
  let lhs_len := (length c3 - 4)%nat in
  if (lhs_len =? length coeffs)%nat then OOk (firstn 4 c3 ++ coeffs)
  else if (length coeffs =? 1)%nat then OOk (firstn 4 c3 ++ repeat (hd 0 coeffs) lhs_len)
  else OValueError.

(** [start_coeffs]: [[0.0] + [0.0]*(pt_deg-4)] for the first torus,
    [coeffs[2::] / coeffs[1]] from the previous torus's [coeffs] after. *)
Definition start_coeffs (pt_deg ii : nat) (prev : list Q) : list Q :=
  match ii with
  | O => 0 :: repeat 0 (pt_deg - 4)
  | S _ => map (fun c => c / nth 1 prev 0) (skipn 2 prev)
  end.

End OptFunc.

(** ** The loop of [_setup_pointtransform] (lines 369-521) and the branch of
    [__init__] that calls it (lines 236-262). *)
Module PointSetup.
Import PointTransform.

(** [opt_func] assembles [ccoeffs] before anything else: the exception
    numpy raises there surfaces from the first call [leastsq] makes. *)
Definition opt_check (r : OptFunc.opt_result) : result unit :=
  match r with
  | OptFunc.OOk _ => Ok tt
  | OptFunc.OIndexError => Raise IndexError
  | OptFunc.OValueError => Raise ValueError
  end.

(** The stored row of a fitted torus: [ccoeffs = numpy.zeros(pt_deg+1)];
    [ccoeffs[1] = 1.0]; [coeffs = ccoeffs]; the derivatives by [polyder]. *)
Definition linear_row (pt_deg : nat) : ptrow :=
  let coeffs := linear_coeffs pt_deg in
  {| pt_coeffs := coeffs;
     pt_deriv_coeffs := polyder coeffs;
     pt_deriv2_coeffs := polyder (polyder coeffs) |}.

Section Fit.
(** [optimize.leastsq(opt_func, start_coeffs)[0]] for torus [ii], past the
    first evaluation of [opt_func]. *)
Variable leastsq : nat -> list Q -> result (list Q).
Variable pt_deg : nat.
(** [self._jr]. *)
Variable jrs : list Q.

(** The loop [for ii in range(self._nE)] from torus [ii] on, [k] tori to
    go; [prev] is the Python variable [coeffs] carried from one torus to the
    next.  [self._jr[ii]] past the end raises [IndexError]. *)
Fixpoint setup_go (k ii : nat) (prev : list Q) : result (list ptrow) :=
  match k with
  | O => Ok []
  | S k' =>
      match nth_error jrs ii with
      | None => Raise IndexError
      | Some jr =>
          if Qlt_bool jr (1 # 10000000000) then
            let row := identity_row pt_deg in
            rows <- setup_go k' (S ii) (pt_coeffs row) ;; Ok (row :: rows)
          else
            let start := OptFunc.start_coeffs pt_deg ii prev in
            _ <- opt_check (OptFunc.ccoeffs pt_deg start) ;;
            fitted <- leastsq ii start ;;
            (* print("WARNING: FIXING PT TO LINEAR"); coeffs = ccoeffs *)
            let row := linear_row pt_deg in
            rows <- setup_go k' (S ii) (pt_coeffs row) ;; Ok (row :: rows)
      end
  end.

(** The rows [self._pt_coeffs[ii]], ... for [ii < nE]. *)
Definition setup_pointtransform (nE : nat) : result (list ptrow) := setup_go nE 0 [].

End Fit.

(** The branch of [__init__]: [if use_pointtransform and pt_deg > 1] the
    fitted setup over [self._nE] tori, [elif False] the identity (never
    taken), [else] the fixed cubic, one row per torus. *)
Definition init_pointtransform (use_pointtransform : bool) (pt_deg : nat)
    (leastsq : nat -> list Q -> result (list Q)) (nE : nat) (jrs : list Q) : result (list ptrow) :=
  if use_pointtransform && (1 <? pt_deg)%nat
  then setup_pointtransform leastsq pt_deg jrs nE
  else Ok (map (fun _ => weird_row) jrs).

End PointSetup.

(** ** The auxiliary energy of [_jraora] (lines 1979-2019). *)
Module JraOra.
Section Ea.
(** [evaluatePotentials(pot, r, 0)] and [isoaa_helper._ip(ra, 0)]. *)
Variable evalPot : Q -> Q.
Variable ip : Q -> Q.

(** [Ea = 0.5*(vr2*piprime**-2 + L2*ra**-2) + isoaa_helper._ip(ra, 0)], with
    [r] the point-transformed radius and [vr2[vr2 < 0.0] = 0.0]. *)
Definition aux_Ea (ra E L2 : Q) (ptcoeffs ptderivcoeffs : list Q) (rperi rap ptrperi ptrap : Q) : Q :=
  let r := (rap - rperi) * PointTransform.polyval ptcoeffs ((ra - ptrperi) / (ptrap - ptrperi)) + rperi in
  let vr2 := 2 * (E - evalPot r) - L2 / (r * r) in
  let vr2' := if Qlt_bool vr2 0 then 0 else vr2 in
  let piprime := (rap - rperi) / (ptrap - ptrperi)
                   * PointTransform.polyval ptderivcoeffs ((ra - ptrperi) / (ptrap - ptrperi)) in
  (1 # 2) * (vr2' * / (piprime * piprime) + L2 * / (ra * ra)) + ip ra.

End Ea.
End JraOra.

(** ** Invariants of the angle bisection *)
Module AngleSolveInv.
Import AngleSolve.

(** At the end: an angle that entered converged is untouched, one that
    entered unconverged holds a value in [(0, 2 pi)]. *)
Definition bis_final (e0 e : aelt) : Prop :=
  (a_un e0 = false -> e = e0) /\ (a_un e0 = true -> 0 < a_ra e < 2 * pi_f).

(** During the loop, with the current step [dar]: the bracket
    [[tryar_min, tryar_min + dar]] stays inside [[0, 2 pi]]. *)
Definition bis_inv (dar : Q) (e0 e : aelt) : Prop :=
  (a_un e0 = false -> e = e0) /\
  (a_un e0 = true -> 0 < a_ra e < 2 * pi_f /\
     (a_un e = true -> 0 <= a_trymin e /\ a_trymin e + dar <= 2 * pi_f)).

End AngleSolveInv.

(** ** Invariants of the table construction *)
Module RgridInv.
Import Rgrid.

(** A node the iteration never touches: not in [unconv], holding [v]. *)
Definition frozen_at (k : nat) (v : Q) (row : list (nparam * node)) : Prop :=
  exists p n, nth_error row k = Some (p, n) /\ n_un n = false /\ n_r n = v.

Definition keeps_frozen (f : nparam -> node -> node) : Prop :=
  forall p n, n_un n = false -> n_un (f p n) = false /\ n_r (f p n) = n_r n.

(** The row invariant: length [nta], and the two turning-point nodes frozen
    at the point-transformed turning points. *)
Definition row_inv (nta : nat) (t : torus) (row : list (nparam * node)) : Prop :=
  length row = nta /\ frozen_at 0 (t_ptrperi t) row /\ frozen_at (half nta) (t_ptrap t) row.

End RgridInv.

(** ** Concrete inputs *)

(** Both checks of the lookup pass: [Jr] and [L = Jz + |Jphi|] within [1e-10]. *)
Definition matches (t : Engine.trec) (jr jphi jz : Q) : Prop :=
  Qabs (jr - Engine.tr_jr t) <= Engine.tol10 /\ Qabs (jz + Qabs jphi - Engine.tr_L t) <= Engine.tol10.

(** Two tables for [_create_rgrid]: the auxiliary angle is linear in the
    auxiliary radius and spans [[0, pi]] between the point-transformed
    turning points. *)
Definition tA : Rgrid.torus :=
  {| Rgrid.t_rperi := 1; Rgrid.t_rap := 2; Rgrid.t_ptrperi := 1; Rgrid.t_ptrap := 2;
     Rgrid.t_ang := fun r => (r - 1) * pi_f; Rgrid.t_dang := fun _ => pi_f |}.


(** Two tori with the same [Jr = 1] and [L = 1], [L = 2]. *)
Definition tl0 : Engine.tlocals :=
  {| Engine.tl_E := 0; Engine.tl_nSn := []; Engine.tl_dSndJr := []; Engine.tl_dSndLish := [];
     Engine.tl_OmegazoverOmegar := 3 # 4; Engine.tl_Omegar := 1; Engine.tl_Omegaz := 3 # 4;
     Engine.tl_amp := 1; Engine.tl_b := 1; Engine.tl_ptcoeffs := [0; 1]; Engine.tl_ptderivcoeffs := [1];
     Engine.tl_rperi := 1; Engine.tl_rap := 2; Engine.tl_ptrperi := 1; Engine.tl_ptrap := 2 |}.

Definition engine_two : Engine.engine :=
  {| Engine.e_interp := false;
     Engine.e_tori := [ {| Engine.tr_jr := 1; Engine.tr_L := 1; Engine.tr_Ls := 1; Engine.tr_locals := tl0 |};
                        {| Engine.tr_jr := 1; Engine.tr_L := 2; Engine.tr_Ls := 2; Engine.tr_locals := tl0 |} ] |}.

Definition xv_zero : Engine.tlocals -> Q -> Q -> Q -> list Q -> list Q -> list Q -> bool -> list (list Q) :=
  fun _ _ _ _ _ _ _ _ => [].

(* ---------------------------------------------------------------------- *)
(** * Facts about the embedding *)

Lemma Qlt_bool_true (x y : Q) : Qlt_bool x y = true -> x < y.
Proof.
  unfold Qlt_bool. intro H. apply negb_true_iff in H.
  apply Qnot_le_lt. intro Hle. apply Qle_bool_iff in Hle. congruence.
Qed.

Lemma Qlt_bool_false (x y : Q) : Qlt_bool x y = false -> y <= x.
Proof.
  unfold Qlt_bool. intro H. apply negb_false_iff in H. now apply Qle_bool_iff.
Qed.

Lemma Qlt_bool_complete (x y : Q) : x < y -> Qlt_bool x y = true.
Proof.
  intro H. destruct (Qlt_bool x y) eqn:E; [reflexivity|].
  apply Qlt_bool_false in E. exfalso. apply (Qlt_not_le x y); assumption.
Qed.

Module RgridFacts.
Import Rgrid RgridInv.

Lemma length_linspace (a b : Q) (n : nat) : length (linspace a b n) = n.
Proof.
  destruct n as [|[|n]]; simpl; try reflexivity.
  rewrite length_map, length_seq. reflexivity.
Qed.

Lemma length_set_nth (i : nat) (v : Q) (l : list Q) : length (set_nth i v l) = length l.
Proof.
  revert i; induction l as [|x l IH]; intros [|i]; simpl; auto.
Qed.

Lemma nth_set_nth_same (i : nat) (v d : Q) (l : list Q) :
  (i < length l)%nat -> nth i (set_nth i v l) d = v.
Proof.
  revert i; induction l as [|x l IH]; intros [|i] H; simpl in *; try lia; auto.
  apply IH. lia.
Qed.

Lemma nth_set_nth_other (i j : nat) (v d : Q) (l : list Q) :
  i <> j -> nth i (set_nth j v l) d = nth i l d.
Proof.
  revert i j; induction l as [|x l IH]; intros [|i] [|j] H; simpl;
    try reflexivity; try lia; apply IH; lia.
Qed.

Lemma half_double (m : nat) : half (2 * m) = m.
Proof.
  unfold half. rewrite Nat.mul_comm. apply Nat.div_mul. lia.
Qed.

(** For an even table the reflection is a plain copy, no broadcasting. *)
Lemma reflect_row_even (m : nat) (row : list Q) :
  (1 <= m)%nat -> length row = (2 * m)%nat ->
  reflect_row (2 * m) row = Ok (firstn (m + 1) row ++ rev (firstn (m - 1) (skipn 1 row))).
Proof.
  intros Hm Hl. unfold reflect_row. rewrite half_double.
  rewrite length_rev, length_firstn, length_skipn, Hl.
  replace (Nat.min (m - 1) (2 * m - 1)) with (m - 1)%nat by lia.
  replace (2 * m - (m + 1))%nat with (m - 1)%nat by lia.
  rewrite Nat.eqb_refl. reflexivity.
Qed.

Lemma reflect_nth_lo (m j : nat) (row : list Q) (d : Q) :
  (1 <= m)%nat -> length row = (2 * m)%nat -> (j <= m)%nat ->
  nth j (firstn (m + 1) row ++ rev (firstn (m - 1) (skipn 1 row))) d = nth j row d.
Proof.
  intros Hm Hl Hj. rewrite app_nth1.
  - rewrite nth_firstn. destruct (Nat.ltb_spec j (m + 1)); [reflexivity | lia].
  - rewrite length_firstn. lia.
Qed.

Lemma reflect_nth_hi (m j : nat) (row : list Q) (d : Q) :
  length row = (2 * m)%nat -> (m + 1 <= j)%nat -> (j < 2 * m)%nat ->
  nth j (firstn (m + 1) row ++ rev (firstn (m - 1) (skipn 1 row))) d = nth (2 * m - j) row d.
Proof.
  intros Hl Hj1 Hj2. rewrite app_nth2 by (rewrite length_firstn; lia).
  rewrite length_firstn. replace (Nat.min (m + 1) (length row)) with (m + 1)%nat by lia.
  rewrite rev_nth by (rewrite length_firstn, length_skipn; lia).
  rewrite length_firstn, length_skipn, nth_firstn.
  replace (Nat.min (m - 1) (length row - 1)) with (m - 1)%nat by lia.
  destruct (Nat.ltb_spec (m - 1 - S (j - (m + 1))) (m - 1)); [|lia].
  rewrite nth_skipn. f_equal. lia.
Qed.

(** The copied row satisfies [r(theta_k) = r(theta_(nta-k))]. *)
Lemma reflect_symmetric (m k : nat) (row : list Q) (d : Q) :
  length row = (2 * m)%nat -> (0 < k)%nat -> (k < 2 * m)%nat ->
  let res := firstn (m + 1) row ++ rev (firstn (m - 1) (skipn 1 row)) in
  nth k res d = nth (2 * m - k) res d.
Proof.
  intros Hl Hk1 Hk2 res. unfold res. assert (Hm : (1 <= m)%nat) by lia.
  destruct (Nat.le_gt_cases k m) as [Hkm | Hkm].
  - rewrite (reflect_nth_lo m k) by assumption.
    destruct (Nat.eq_dec k m) as [-> | Hne].
    + replace (2 * m - m)%nat with m by lia.
      rewrite (reflect_nth_lo m m) by (assumption || lia). reflexivity.
    + rewrite (reflect_nth_hi m (2 * m - k)) by (assumption || lia).
      f_equal. lia.
  - rewrite (reflect_nth_hi m k) by (assumption || lia).
    rewrite (reflect_nth_lo m (2 * m - k)) by (assumption || lia). reflexivity.
Qed.

(** [map_grid] keeps any row-wise relation to the tori that the row map
    keeps. *)
Lemma map_grid_Forall2 (R : torus -> list (nparam * node) -> Prop)
    (f : nparam -> node -> node) (ts : list torus) (g : grid) :
  (forall t row, R t row -> R t (map (fun pn => (fst pn, f (fst pn) (snd pn))) row)) ->
  Forall2 R ts g -> Forall2 R ts (map_grid f g).
Proof.
  intros Hf H. unfold map_grid. induction H; simpl; constructor; auto.
Qed.

Lemma mapM_Forall2 {B : Type} (R : torus -> list (nparam * node) -> Prop)
    (S : torus -> B -> Prop) (f : list (nparam * node) -> result B)
    (ts : list torus) (g : grid) :
  (forall t row, R t row -> exists y, f row = Ok y /\ S t y) ->
  Forall2 R ts g -> exists ys, mapM f g = Ok ys /\ Forall2 S ts ys.
Proof.
  intros Hf H. induction H as [|t row ts' g' HR _ IH].
  - exists []. split; [reflexivity | constructor].
  - destruct (Hf t row HR) as [y [Hy HS]]. destruct IH as [ys [Hys HF]].
    exists (y :: ys). simpl. rewrite Hy. simpl. rewrite Hys. simpl. split; [reflexivity|].
    constructor; assumption.
Qed.

Section Loops.
Variable nta maxiter : nat.
Variable tol : Q.
Variable R : torus -> list (nparam * node) -> Prop.

Lemma newton_loop_Forall2 (ts : list torus) :
  (forall t row, R t row ->
     R t (map (fun pn => (fst pn, newton_node tol (fst pn) (snd pn))) row)) ->
  forall fuel cntr g, Forall2 R ts g -> Forall2 R ts (snd (newton_loop maxiter tol fuel cntr g)).
Proof.
  intros Hf fuel. induction fuel as [|fuel IH]; intros cntr g Hg; simpl; [assumption|].
  pose proof (map_grid_Forall2 R _ ts g Hf Hg) as Hg'.
  destruct (negb (any_unconv _)); [exact Hg'|].
  destruct (maxiter <? S cntr)%nat; [exact Hg' | apply IH; exact Hg'].
Qed.

Lemma bisect_loop_Forall2 (ts : list torus) :
  (forall t row, R t row ->
     R t (map (fun pn => (fst pn, bisect_node tol (fst pn) (snd pn))) row)) ->
  forall fuel cntr g, Forall2 R ts g -> Forall2 R ts (bisect_loop maxiter tol fuel cntr g).
Proof.
  intros Hf fuel. induction fuel as [|fuel IH]; intros cntr g Hg; simpl; [assumption|].
  pose proof (map_grid_Forall2 R _ ts g Hf Hg) as Hg'.
  destruct (negb (any_unconv _)); [exact Hg'|].
  destruct (maxiter <? S cntr)%nat; [exact Hg' | apply IH; exact Hg'].
Qed.

End Loops.
Lemma Forall2_map_r {A B : Type} (R : A -> B -> Prop) (f : A -> B) (l : list A) :
  (forall x, R x (f x)) -> Forall2 R l (map f l).
Proof. intro H. induction l; simpl; constructor; auto. Qed.

Lemma newton_keeps_frozen (tol : Q) : keeps_frozen (newton_node tol).
Proof. intros p n H. unfold newton_node. rewrite H. split; [exact H | reflexivity]. Qed.

Lemma bisect_keeps_frozen (tol : Q) : keeps_frozen (bisect_node tol).
Proof. intros p n H. unfold bisect_node. rewrite H. simpl. split; [reflexivity | reflexivity]. Qed.

Lemma bisect_start_keeps_frozen : keeps_frozen bisect_start.
Proof. intros p n H. unfold bisect_start. simpl. split; [exact H | reflexivity]. Qed.

Lemma row_inv_map (nta : nat) (f : nparam -> node -> node) :
  keeps_frozen f ->
  forall t row, row_inv nta t row ->
    row_inv nta t (map (fun pn => (fst pn, f (fst pn) (snd pn))) row).
Proof.
  intros Hf t row [Hl [[p0 [n0 [E0 [U0 R0]]]] [pm [nm [Em [Um Rm]]]]]].
  split; [rewrite length_map; exact Hl|]. split.
  - exists p0, (f p0 n0). rewrite nth_error_map, E0. simpl.
    destruct (Hf p0 n0 U0) as [U R]. split; [reflexivity|]. split; [exact U | congruence].
  - exists pm, (f pm nm). rewrite nth_error_map, Em. simpl.
    destruct (Hf pm nm Um) as [U R]. split; [reflexivity|]. split; [exact U | congruence].
Qed.

Lemma init_row_inv (m : nat) (tol dmax : Q) (t : torus) :
  (1 <= m)%nat -> row_inv (2 * m) t (init_row (2 * m) tol dmax t).
Proof.
  intros Hm. unfold row_inv, init_row. rewrite half_double.
  split; [rewrite length_map, length_seq; reflexivity|]. split.
  - exists (init_param (2 * m) dmax t 0), (init_node (2 * m) tol t 0).
    rewrite nth_error_map, nth_error_seq.
    destruct (Nat.ltb_spec 0 (2 * m)); [|lia].
    split; [reflexivity|]. split; [reflexivity|].
    unfold init_node, start_radii. cbn [n_r]. rewrite half_double.
    rewrite nth_set_nth_other by lia. apply nth_set_nth_same.
    rewrite length_map. unfold thetaa. rewrite length_linspace. lia.
  - exists (init_param (2 * m) dmax t m), (init_node (2 * m) tol t m).
    rewrite nth_error_map, nth_error_seq.
    destruct (Nat.ltb_spec m (2 * m)); [|lia].
    split; [reflexivity|]. unfold init_node. cbn [n_un n_r].
    rewrite half_double, Nat.ltb_irrefl, andb_false_r, andb_false_l. split; [reflexivity|].
    unfold start_radii. rewrite half_double. apply nth_set_nth_same.
    rewrite !length_set_nth, length_map. unfold thetaa. rewrite length_linspace. lia.
Qed.

Lemma frozen_nth (k : nat) (v : Q) (row : list (nparam * node)) :
  frozen_at k v row -> nth k (map (fun pn => n_r (snd pn)) row) 0 = v.
Proof.
  intros [p [n [E [_ R]]]]. apply nth_error_nth.
  rewrite nth_error_map, E. simpl. congruence.
Qed.

(** The stored table of [_create_rgrid] for an even [nta = 2m]: every row is
    the reflected copy of the iterated radii, whose nodes [0] and [m] hold the
    point-transformed turning points. *)
Lemma create_rgrid_even (m maxiter : nat) (tol : Q) (bisect : bool) (ts : list torus) :
  (1 <= m)%nat -> ts <> [] ->
  exists rows, create_rgrid (2 * m) maxiter tol bisect ts = Ok rows /\
    Forall2 (fun t res => exists rs, length rs = (2 * m)%nat /\
               res = firstn (m + 1) rs ++ rev (firstn (m - 1) (skipn 1 rs)) /\
               nth 0 rs 0 = t_ptrperi t /\ nth m rs 0 = t_ptrap t) ts rows.
Proof.
  intros Hm Hts. unfold create_rgrid.
  destruct ts as [|t0 ts0]; [contradiction|]. set (ts := t0 :: ts0).
  assert (H0 : Forall2 (row_inv (2 * m)) ts (map (init_row (2 * m) tol (damax (2 * m) ts)) ts))
    by (apply Forall2_map_r; intro t; apply init_row_inv; exact Hm).
  destruct (if bisect then (O, map (init_row (2 * m) tol (damax (2 * m) ts)) ts)
            else newton_loop maxiter tol (S maxiter) O
                   (map (init_row (2 * m) tol (damax (2 * m) ts)) ts)) as [cntr g1] eqn:E.
  assert (H1 : Forall2 (row_inv (2 * m)) ts g1).
  { destruct bisect.
    - injection E as _ <-. exact H0.
    - change g1 with (snd (cntr, g1)). rewrite <- E.
      apply newton_loop_Forall2; [apply row_inv_map, newton_keeps_frozen | exact H0]. }
  assert (H2 : Forall2 (row_inv (2 * m)) ts
                 (if bisect || (maxiter <? cntr)%nat
                  then bisect_loop maxiter tol (S maxiter) O (map_grid bisect_start g1)
                  else g1)).
  { destruct (bisect || (maxiter <? cntr)%nat); [|exact H1].
    apply bisect_loop_Forall2; [apply row_inv_map, bisect_keeps_frozen|].
    apply map_grid_Forall2; [apply row_inv_map, bisect_start_keeps_frozen | exact H1]. }
  apply (mapM_Forall2 (row_inv (2 * m)) _ _ ts _); [|exact H2].
  intros t row [Hl [F0 Fm]].
  set (rs := map (fun pn => n_r (snd pn)) row).
  assert (Hrs : length rs = (2 * m)%nat) by (unfold rs; rewrite length_map; exact Hl).
  eexists. split; [apply reflect_row_even; assumption|].
  exists rs. split; [exact Hrs|]. split; [reflexivity|]. split.
  - apply frozen_nth. exact F0.
  - rewrite <- (half_double m). apply frozen_nth. exact Fm.
Qed.


(** The reflected row has the length of the iterated one. *)
Lemma reflect_length (m : nat) (rs : list Q) :
  length rs = (2 * m)%nat -> (1 <= m)%nat ->
  length (firstn (m + 1) rs ++ rev (firstn (m - 1) (skipn 1 rs))) = (2 * m)%nat.
Proof.
  intros Hl Hm. rewrite length_app, length_rev, !length_firstn, length_skipn. lia.
Qed.

Lemma Forall2_Forall_r {A B : Type} (R : A -> B -> Prop) (P : B -> Prop) (l1 : list A) (l2 : list B) :
  (forall a b, R a b -> P b) -> Forall2 R l1 l2 -> Forall P l2.
Proof. intros HP H. induction H; constructor; eauto. Qed.

(** The grid angles: [thetaa n] holds [k * 2 pi / n] at node [k]. *)
Lemma thetaa_nth (n k : nat) :
  (2 <= n)%nat -> (k < n)%nat ->
  nth k (thetaa n) 0 == inject_Z (Z.of_nat k) * (2 * pi_f / inject_Z (Z.of_nat n)).
Proof.
  intros Hn Hk. unfold thetaa, linspace.
  destruct n as [|[|n']]; [lia | lia |].
  set (f := fun k0 : nat => 0 + inject_Z (Z.of_nat k0) *
              ((2 * pi_f * (1 - 1 / inject_Z (Z.of_nat (S (S n')))) - 0) /
               inject_Z (Z.of_nat (S (S n') - 1)))).
  rewrite (nth_indep _ 0 (f O)) by (rewrite length_map, length_seq; exact Hk).
  rewrite map_nth, seq_nth by exact Hk. unfold f. simpl (0 + k)%nat.
  replace (S (S n') - 1)%nat with (S n') by lia.
  rewrite !Nat2Z.inj_succ, <- !Z.add_1_r, !inject_Z_plus.
  set (x := inject_Z (Z.of_nat n')).
  field. split; unfold x, Qeq; simpl; lia.
Qed.

End RgridFacts.

Module FourierFacts.
Import Fourier.

Lemma nth_map_0 (f : Q -> Q) (l : list Q) (k : nat) :
  f 0 = 0 -> nth k (map f l) 0 = f (nth k l 0).
Proof.
  intros H. revert k. induction l as [|x l IH]; intros k; destruct k; simpl; auto.
Qed.

(** Entry [k] of [divide_by row ns] is [row_k / ns_k], also out of range
    (where both rows read as [0] and [x / 0 = 0]). *)
Lemma nth_divide_by (row ns : list Q) (k : nat) :
  nth k (divide_by row ns) 0 == nth k row 0 / nth k ns 0.
Proof.
  unfold divide_by. revert ns k. induction row as [|x row IH]; intros ns k.
  - destruct k; simpl; unfold Qdiv; rewrite Qmult_0_l; reflexivity.
  - destruct ns as [|n ns]; destruct k; simpl.
    + unfold Qdiv. rewrite Qmult_0_r. reflexivity.
    + unfold Qdiv. rewrite Qmult_0_r. reflexivity.
    + reflexivity.
    + apply IH.
Qed.

Lemma nth_harmonics (nta k : nat) :
  (k < Nat.div nta 2)%nat -> nth k (harmonics nta) 0 = inject_Z (Z.of_nat (S k)).
Proof.
  intros Hk. unfold harmonics.
  rewrite (nth_indep _ 0 (inject_Z (Z.of_nat 0))) by (rewrite length_map, length_seq; exact Hk).
  rewrite (map_nth (fun k0 => inject_Z (Z.of_nat k0))), seq_nth by exact Hk.
  reflexivity.
Qed.

End FourierFacts.

Module PolyFacts.
Import OptFunc PointTransform.

Lemma polyval_cons (a : Q) (c : list Q) (x : Q) : polyval (a :: c) x == a + x * polyval c x.
Proof. reflexivity. Qed.

Lemma polyval_zeros (n : nat) (x : Q) : polyval (repeat 0 n) x == 0.
Proof. induction n as [|n IH]; cbn [repeat]; [reflexivity|]. rewrite polyval_cons, IH. ring. Qed.

Lemma polyval_Qeq (c : list Q) (x y : Q) : x == y -> polyval c x == polyval c y.
Proof.
  intro H. unfold polyval. induction c as [|a c IH]; cbn [fold_right]; [reflexivity|].
  rewrite IH, H. reflexivity.
Qed.

Lemma polyval_1 (c : list Q) : polyval c 1 == qsum c.
Proof.
  unfold polyval, qsum; induction c as [|a c IH]; cbn [fold_right] in *; [reflexivity|].
  rewrite IH; ring.
Qed.

Lemma qsum_polyder_aux_S (k : nat) (c : list Q) :
  qsum (polyder_aux (S k) c) == qsum (polyder_aux k c) + qsum c.
Proof.
  revert k; induction c as [|a c IH]; intro k; cbn [polyder_aux qsum fold_right]; [ring|].
  unfold qsum in IH; rewrite IH. rewrite Nat2Z.inj_succ; unfold Z.succ; rewrite inject_Z_plus. ring.
Qed.

Lemma polyder_linear_shift (c : list Q) : tl (polyder (0 :: 0 :: c)) = polyder_aux 2 c.
Proof. reflexivity. Qed.

Lemma polyval_0_cons (a : Q) (c : list Q) : polyval (a :: c) 0 == a.
Proof. unfold polyval; cbn [fold_right]; ring. Qed.

(** The assembly of [opt_func] for free coefficients of the right length. *)
Lemma ccoeffs_shape (pt_deg : nat) (coeffs : list Q) :
  (3 <= pt_deg)%nat -> length coeffs = (pt_deg - 3)%nat ->
  exists c, ccoeffs pt_deg coeffs = OOk c /\ length c = S pt_deg /\ skipn 4 c = coeffs /\
    polyval c 0 == 0 /\ polyval c 1 == 1 /\
    polyval (polyder c) 0 == 1 /\ polyval (polyder c) 1 == 1.
Proof.
  intros Hd Hl.
  destruct pt_deg as [|[|[|m']]]; try lia.
  set (m := m') in *.
  assert (Hm : m = length coeffs) by (cbn in Hl; lia).
  unfold ccoeffs.
  replace (S (S (S m)) + 1)%nat with (S (S (S (S m)))) by lia.
  cbn [Nat.ltb Nat.leb negb repeat Rgrid.set_nth nth length].
  rewrite repeat_length.
  replace (S (S (S (S m))) - 4)%nat with (length coeffs) by lia.
  rewrite Nat.eqb_refl.
  eexists; split; [reflexivity|].
  cbn [firstn app length skipn]. rewrite polyder_linear_shift.
  set (v3 := - qsum (polyder_aux 2 coeffs)).
  set (v2 := - qsum coeffs - v3).
  split; [cbn; lia|]. split; [reflexivity|].
  split; [apply polyval_0_cons|].
  split.
  { rewrite polyval_1. unfold qsum; cbn [fold_right]. fold (qsum coeffs). unfold v2. ring. }
  cbn [polyder polyder_aux].
  split; [apply polyval_0_cons|].
  rewrite polyval_1. unfold qsum at 1; cbn [fold_right]. fold (qsum (polyder_aux 4 coeffs)).
  rewrite (qsum_polyder_aux_S 3), (qsum_polyder_aux_S 2). unfold v2, v3.
  cbn [Z.of_nat Pos.of_succ_nat Pos.succ inject_Z]. ring.
Qed.

Lemma ccoeffs_wrong_length (pt_deg : nat) (coeffs : list Q) :
  length coeffs = (pt_deg - 1)%nat ->
  ccoeffs pt_deg coeffs = if (pt_deg <=? 2)%nat then OIndexError else OValueError.
Proof.
  intro Hl. unfold ccoeffs.
  destruct pt_deg as [|[|[|m]]]; [reflexivity..|].
  replace (S (S (S m)) + 1)%nat with (S (S (S (S m)))) by lia.
  cbn [Nat.ltb Nat.leb negb].
  rewrite !RgridFacts.length_set_nth, repeat_length, Hl.
  replace (S (S (S (S m))) - 4)%nat with m by lia.
  replace (S (S (S m)) - 1)%nat with (S (S m)) by lia.
  destruct (Nat.eqb_spec m (S (S m))); [lia|].
  reflexivity.
Qed.

Lemma polyval_repeat_1 (n : nat) : polyval (repeat 1 n) 1 == inject_Z (Z.of_nat n).
Proof.
  unfold polyval; induction n as [|n IH]; cbn [repeat fold_right]; [reflexivity|].
  rewrite IH, Nat2Z.inj_succ; unfold Z.succ; rewrite inject_Z_plus; ring.
Qed.

Lemma polyval_polyder_aux_zeros (k n : nat) (x : Q) : polyval (polyder_aux k (repeat 0 n)) x == 0.
Proof.
  unfold polyval; revert k; induction n as [|n IH]; intro k; cbn [repeat polyder_aux fold_right]; [reflexivity|].
  rewrite IH; ring.
Qed.

End PolyFacts.

Lemma bind_Ok {A B : Type} (m : result A) (k : A -> result B) (r : B) :
  bind m k = Ok r <-> exists a, m = Ok a /\ k a = Ok r.
Proof.
  destruct m as [a|e]; cbn [bind]; split.
  - intro H. exists a. split; [reflexivity | exact H].
  - intros [a' [E H]]. injection E as <-. exact H.
  - discriminate.
  - intros [a' [E _]]. discriminate.
Qed.


Lemma skipn_cons_nth {A : Type} (l : list A) (i : nat) (x : A) :
  nth_error l i = Some x -> skipn i l = x :: skipn (S i) l.
Proof.
  revert i; induction l as [|y l IH]; intros [|i] H; cbn in H |- *; try discriminate.
  - injection H as ->. reflexivity.
  - apply IH. exact H.
Qed.

Module PointSetupFacts.
Import PointTransform OptFunc PointSetup PolyFacts.

(** The row the loop stores for a torus with radial action [jr]. *)
Definition row_of (pt_deg : nat) (jr : Q) : ptrow :=
  if Qlt_bool jr (1 # 10000000000) then identity_row pt_deg else linear_row pt_deg.

(** Whatever [leastsq] returns, a completed loop stores [row_of] of each
    visited torus. *)
Lemma setup_go_shape (lsq : nat -> list Q -> result (list Q)) (pt_deg : nat) (jrs : list Q) :
  forall k ii prev rows, setup_go lsq pt_deg jrs k ii prev = Ok rows ->
  rows = map (row_of pt_deg) (firstn k (skipn ii jrs)).
Proof.
  induction k as [|k IH]; intros ii prev rows H; cbn [setup_go] in H.
  - injection H as <-. destruct (skipn ii jrs); reflexivity.
  - destruct (nth_error jrs ii) as [jr|] eqn:Ej; [|discriminate].
    rewrite (skipn_cons_nth _ _ _ Ej). cbn [firstn map]. unfold row_of.
    destruct (Qlt_bool jr (1 # 10000000000)).
    + apply bind_Ok in H as [rows' [E H]]. injection H as <-. f_equal. eapply IH. exact E.
    + apply bind_Ok in H as [u [_ H]]. apply bind_Ok in H as [c [_ H]].
      apply bind_Ok in H as [rows' [E H]]. injection H as <-. f_equal. eapply IH. exact E.
Qed.

Lemma row_of_linear (pt_deg : nat) (jr : Q) : pt_coeffs (row_of pt_deg jr) = linear_coeffs pt_deg.
Proof. unfold row_of. destruct (Qlt_bool jr (1 # 10000000000)); reflexivity. Qed.

Lemma setup_rows_linear (lsq : nat -> list Q -> result (list Q)) (pt_deg nE : nat) (jrs : list Q) (rows : list ptrow) :
  setup_pointtransform lsq pt_deg jrs nE = Ok rows ->
  Forall (fun row => pt_coeffs row = linear_coeffs pt_deg) rows.
Proof.
  intro H. apply setup_go_shape in H. subst rows.
  apply Forall_map, Forall_forall. intros jr _. apply row_of_linear.
Qed.

Lemma setup_fit_independent (lsq lsq' : nat -> list Q -> result (list Q)) (pt_deg nE : nat) (jrs : list Q)
    (rows rows' : list ptrow) :
  setup_pointtransform lsq pt_deg jrs nE = Ok rows ->
  setup_pointtransform lsq' pt_deg jrs nE = Ok rows' -> rows' = rows.
Proof.
  intros H H'. apply setup_go_shape in H. apply setup_go_shape in H'. congruence.
Qed.

Lemma setup_small_jr (lsq : nat -> list Q -> result (list Q)) (pt_deg nE : nat) (jrs : list Q)
    (rows : list ptrow) (k : nat) (jr : Q) :
  setup_pointtransform lsq pt_deg jrs nE = Ok rows -> (k < nE)%nat ->
  nth_error jrs k = Some jr -> jr < 1 # 10000000000 ->
  nth_error rows k = Some (identity_row pt_deg).
Proof.
  intros H Hk Ej Hj. apply setup_go_shape in H. subst rows.
  rewrite nth_error_map, nth_error_firstn. cbn [skipn].
  destruct (Nat.ltb_spec k nE); [|lia]. rewrite Ej. cbn [option_map].
  unfold row_of. rewrite (Qlt_bool_complete _ _ Hj). reflexivity.
Qed.




(** Every stored row of either branch maps [0] to [0] and [1] to [1]. *)
Lemma init_pointtransform_ends (use_pt : bool) (pt_deg nE : nat) (lsq : nat -> list Q -> result (list Q))
    (jrs : list Q) (rows : list ptrow) :
  init_pointtransform use_pt pt_deg lsq nE jrs = Ok rows ->
  Forall (fun row => polyval (pt_coeffs row) 0 == 0 /\ polyval (pt_coeffs row) 1 == 1) rows.
Proof.
  unfold init_pointtransform. destruct (use_pt && (1 <? pt_deg)%nat); intro H.
  - eapply Forall_impl; [|apply (setup_rows_linear _ _ _ _ _ H)].
    intros row ->. unfold linear_coeffs.
    rewrite !polyval_cons, !polyval_zeros. split; ring.
  - injection H as <-. induction jrs as [|jr jrs IH]; cbn [map]; constructor; [|exact IH].
    split; vm_compute; reflexivity.
Qed.

End PointSetupFacts.
(* ---------------------------------------------------------------------- *)
(** * The claims *)

(** C1: the construction is meant to reject [Omegaz < Omegar/2]
    (its own error message says so), but the sign test on [ampb] only catches
    [Omegaz > Omegar]: with [L = 1], [Omegar = 1] and [Omegaz = 2/5 < 1/2] both
    the batch check and the single-torus check pass without raising. *)
Theorem isochrone_check_accepts_low_ratio :
  IsochroneMatch.check_single 1 1 (2 # 5) = Ok tt /\
  IsochroneMatch.check_nodes [(1, 1, 2 # 5)] = Ok tt /\
  2 # 5 < (1 # 2) * 1.
Proof. split; [reflexivity | split; [reflexivity | reflexivity]]. Qed.

(** C2: in the default configuration ([use_pointtransform=False])
    every torus stores the cubic [0 + 1.3 x + 0 x^2 - 0.3 x^3]: [P(0)=0] and
    [P(1)=1] hold, but [P'(0)=1.3] and [P'(1)=0.4], so the boundary conditions
    fail far beyond the tolerance [1e-8]. *)
Theorem default_pointtransform_slopes (pt_deg nE : nat) (lsq : nat -> list Q -> result (list Q)) (jr : Q) :
  PointSetup.init_pointtransform false pt_deg lsq nE [jr] = Ok [PointTransform.weird_row] /\
  PointTransform.polyval (PointTransform.pt_coeffs PointTransform.weird_row) 0 == 0 /\
  PointTransform.polyval (PointTransform.pt_coeffs PointTransform.weird_row) 1 == 1 /\
  PointTransform.polyval (PointTransform.polyder (PointTransform.pt_coeffs PointTransform.weird_row)) 0 == 13 # 10 /\
  PointTransform.polyval (PointTransform.polyder (PointTransform.pt_coeffs PointTransform.weird_row)) 1 == 2 # 5 /\
  ~ PointTransform.boundary_ok (1 # 100000000) (PointTransform.pt_coeffs PointTransform.weird_row).
Proof.
  split; [reflexivity|].
  split; [reflexivity|]. split; [reflexivity|]. split; [reflexivity|]. split; [reflexivity|].
  intros [_ [_ [H _]]]. vm_compute in H. apply H. reflexivity.
Qed.

(** C3: the point transform is hard-coded.  With [use_pointtransform=False]
    every stored coefficient vector is [(0, 1.3, 0, -0.3)]; with
    [use_pointtransform=True] and [pt_deg > 1], whenever the setup returns,
    every stored vector is the linear [(0, 1, 0, ..., 0)] and the stored rows
    are the same whatever the least-squares fit returns.  (The setup returns
    only if no fitted torus follows the first one and [pt_deg >= 3].) *)
Theorem debug_pointtransform_hardcoded (use_pointtransform : bool) (pt_deg nE : nat)
    (lsq lsq' : nat -> list Q -> result (list Q)) (jrs : list Q) :
  (use_pointtransform = false ->
   exists rows, PointSetup.init_pointtransform use_pointtransform pt_deg lsq nE jrs = Ok rows /\
   Forall (fun row => Forall2 Qeq (PointTransform.pt_coeffs row) [0; 13 # 10; 0; Qopp (3 # 10)]) rows) /\
  (use_pointtransform = true -> (1 < pt_deg)%nat ->
   forall rows, PointSetup.init_pointtransform use_pointtransform pt_deg lsq nE jrs = Ok rows ->
   Forall (fun row => PointTransform.pt_coeffs row = PointTransform.linear_coeffs pt_deg) rows /\
   forall rows', PointSetup.init_pointtransform use_pointtransform pt_deg lsq' nE jrs = Ok rows' ->
   rows' = rows).
Proof.
  split.
  - intros ->. eexists. split; [reflexivity|].
    apply Forall_map, Forall_forall. intros _ _. repeat constructor.
  - intros -> Hdeg rows H. unfold PointSetup.init_pointtransform in *.
    destruct (Nat.ltb_spec 1 pt_deg); [|lia]. cbn [andb] in *.
    split; [exact (PointSetupFacts.setup_rows_linear _ _ _ _ _ H)|].
    intros rows' H'. exact (PointSetupFacts.setup_fit_independent _ _ _ _ _ _ _ H H').
Qed.

Lemma debug_pointtransform_hardcoded_witness :
  PointSetup.init_pointtransform true 7 (fun _ s => Ok s) 2 [1; 0] =
    Ok [PointSetup.linear_row 7; PointTransform.identity_row 7] /\
  (Forall (fun row => PointTransform.pt_coeffs row = PointTransform.linear_coeffs 7)
     [PointSetup.linear_row 7; PointTransform.identity_row 7] /\
   forall rows', PointSetup.init_pointtransform true 7 (fun _ _ => Ok [5]) 2 [1; 0] = Ok rows' ->
   rows' = [PointSetup.linear_row 7; PointTransform.identity_row 7]).
Proof.
  assert (E : PointSetup.init_pointtransform true 7 (fun _ s => Ok s) 2 [1; 0] =
                Ok [PointSetup.linear_row 7; PointTransform.identity_row 7]) by reflexivity.
  split; [exact E|].
  exact (proj2 (debug_pointtransform_hardcoded true 7 2 (fun _ s => Ok s) (fun _ _ => Ok [5]) [1; 0])
           eq_refl ltac:(lia) _ E).
Defined.

Module EngineFacts.
Import Engine.

Lemma argmin_go_range (l : list Q) :
  forall best_i best i, let r := Rgrid.argmin_go best_i best i l in
  r = best_i \/ (i <= r < i + length l)%nat.
Proof.
  induction l as [|x l IH]; intros best_i best i; simpl; [left; reflexivity|].
  destruct (Qlt_bool x best).
  - destruct (IH i x (S i)) as [-> | H]; right; lia.
  - destruct (IH best_i best (S i)) as [-> | H]; [left; reflexivity | right; lia].
Qed.

Lemma argmin_lt (l : list Q) : l <> [] -> (Rgrid.argmin l < length l)%nat.
Proof.
  destruct l as [|x l]; [contradiction|]. intros _. unfold Rgrid.argmin.
  destruct (argmin_go_range l 0 x 1) as [-> | H]; simpl; lia.
Qed.

Lemma nearest_In (tori : list trec) (jr : Q) (t : trec) :
  nearest tori jr = Ok t -> In t tori.
Proof.
  destruct tori as [|t0 tori']; [discriminate|]. unfold nearest. intros H.
  set (i := Rgrid.argmin _) in H. set (l := t0 :: tori') in H |- *.
  apply (f_equal (fun r => match r with Ok x => x | Raise _ => t0 end)) in H.
  cbv beta iota in H. rewrite <- H. apply nth_In. subst i l. pose proof (argmin_lt (map (fun t => Qabs (jr - tr_jr t)) (t0 :: tori'))) as Hl.
  rewrite length_map in Hl. apply Hl. discriminate.
Qed.

End EngineFacts.

(** C6: the lookup does not find a stored torus that matches.  The second
    stored torus matches [Jr = 1] and [L = Jz + |Jphi| = 2] exactly, yet
    [evaluate] raises the lookup error,
    because the lookup only inspects the torus nearest in [Jr] (the first one
    on a tie), whose [L = 1]. *)
Lemma evaluate_lookup_tie_counterexample :
  matches (nth 1 (Engine.e_tori engine_two) (nth 0 (Engine.e_tori engine_two) (Engine.mk_trec 0 0 0 tl0))) 1 2 0 /\
  Engine.evaluate xv_zero engine_two 1 2 0 [0] [0] [0] = Raise ValueError.
Proof.
  split; [split; vm_compute; discriminate | reflexivity].
Qed.

(** X16: with interpolation disabled, [evaluate] looks at the stored
    torus whose [Jr] is nearest to the query (the first one on ties) and
    raises the lookup error exactly when that torus fails one of the two
    [1e-10] checks (or no torus is stored); in particular it raises whenever
    no stored torus matches both, and a successful call uses a stored torus
    matching both.  The lookup only reads the engine. *)
Theorem evaluate_lookup (xv : Engine.tlocals -> Q -> Q -> Q -> list Q -> list Q -> list Q -> bool -> list (list Q))
    (e : Engine.engine) (jr jphi jz : Q) (angler anglephi anglez : list Q) :
  Engine.e_interp e = false ->
  (Engine.evaluate xv e jr jphi jz angler anglephi anglez = Raise ValueError <->
   (forall t, Engine.nearest (Engine.e_tori e) jr = Ok t -> ~ matches t jr jphi jz)) /\
  ((forall t, In t (Engine.e_tori e) -> ~ matches t jr jphi jz) ->
   Engine.evaluate xv e jr jphi jz angler anglephi anglez = Raise ValueError) /\
  (forall r, Engine.evaluate xv e jr jphi jz angler anglephi anglez = Ok r ->
   exists t, In t (Engine.e_tori e) /\ Engine.nearest (Engine.e_tori e) jr = Ok t /\ matches t jr jphi jz).
Proof.
  intros He.
  assert (Hchar : forall t, Engine.nearest (Engine.e_tori e) jr = Ok t ->
            (Engine.evaluate xv e jr jphi jz angler anglephi anglez = Raise ValueError <-> ~ matches t jr jphi jz) /\
            (forall r, Engine.evaluate xv e jr jphi jz angler anglephi anglez = Ok r -> matches t jr jphi jz)).
  { intros t Ht. unfold Engine.evaluate, Engine.xvFreqs, Engine.lookup. rewrite He. cbn [negb].
    rewrite Ht. cbn [bind].
    destruct (Qlt_bool Engine.tol10 (Qabs (jr - Engine.tr_jr t))) eqn:B1;
    destruct (Qlt_bool Engine.tol10 (Qabs (jz + Qabs jphi - Engine.tr_L t))) eqn:B2;
    cbn [orb bind Engine.read_local]; unfold matches.
    - split; [split; [intros _ [H1 _]; apply Qlt_bool_true in B1; apply (Qlt_not_le _ _ B1 H1) | reflexivity] | discriminate].
    - split; [split; [intros _ [H1 _]; apply Qlt_bool_true in B1; apply (Qlt_not_le _ _ B1 H1) | reflexivity] | discriminate].
    - split; [split; [intros _ [_ H2]; apply Qlt_bool_true in B2; apply (Qlt_not_le _ _ B2 H2) | reflexivity] | discriminate].
    - apply Qlt_bool_false in B1. apply Qlt_bool_false in B2.
      split; [split; [discriminate | intros H; exfalso; apply H; split; assumption] | intros _ _; split; assumption]. }
  split; [|split].
  - split.
    + intros Hr t Ht. apply (proj1 (Hchar t Ht)). exact Hr.
    + intros H. destruct (Engine.nearest (Engine.e_tori e) jr) as [t|ex] eqn:Ht.
      * apply (proj1 (Hchar t eq_refl)). apply H. reflexivity.
      * unfold Engine.evaluate, Engine.xvFreqs, Engine.lookup. rewrite He. cbn [negb]. rewrite Ht.
        destruct (Engine.e_tori e); simpl in Ht; [|discriminate]. injection Ht as <-. reflexivity.
  - intros Hno. destruct (Engine.nearest (Engine.e_tori e) jr) as [t|ex] eqn:Ht.
    + apply (proj1 (Hchar t eq_refl)). apply Hno. apply EngineFacts.nearest_In with jr. exact Ht.
    + unfold Engine.evaluate, Engine.xvFreqs, Engine.lookup. rewrite He. cbn [negb]. rewrite Ht.
      destruct (Engine.e_tori e); simpl in Ht; [|discriminate]. injection Ht as <-. reflexivity.
  - intros r Hr. destruct (Engine.nearest (Engine.e_tori e) jr) as [t|ex] eqn:Ht.
    + exists t. split; [apply EngineFacts.nearest_In with jr; exact Ht|]. split; [reflexivity|].
      apply (proj2 (Hchar t eq_refl) r Hr).
    + unfold Engine.evaluate, Engine.xvFreqs, Engine.lookup in Hr. rewrite He in Hr. cbn [negb] in Hr.
      rewrite Ht in Hr. discriminate.
Qed.

Lemma evaluate_lookup_witness :
  (Engine.evaluate xv_zero engine_two 1 2 0 [0] [0] [0] = Raise ValueError <->
   (forall t, Engine.nearest (Engine.e_tori engine_two) 1 = Ok t -> ~ matches t 1 2 0)) /\
  ((forall t, In t (Engine.e_tori engine_two) -> ~ matches t 1 2 0) ->
   Engine.evaluate xv_zero engine_two 1 2 0 [0] [0] [0] = Raise ValueError) /\
  (forall r, Engine.evaluate xv_zero engine_two 1 2 0 [0] [0] [0] = Ok r ->
   exists t, In t (Engine.e_tori engine_two) /\ Engine.nearest (Engine.e_tori engine_two) 1 = Ok t /\ matches t 1 2 0).
Proof.
  apply (evaluate_lookup xv_zero engine_two 1 2 0 [0] [0] [0]). reflexivity.
Defined.

(** C9: once [__init__] has set [self._interp = True] ([setup_interp=True]),
    every call to [_xvFreqs], [evaluate] and [_Freqs] takes the [else: pass]
    branch and fails with [UnboundLocalError] on the unbound torus locals. *)
Theorem interp_stub_unbound
    (xv : Engine.tlocals -> Q -> Q -> Q -> list Q -> list Q -> list Q -> bool -> list (list Q))
    (e : Engine.engine) (jr jphi jz : Q) (angler anglephi anglez : list Q) (point : bool) :
  Engine.xvFreqs xv (Engine.set_interp true e) jr jphi jz angler anglephi anglez point = Raise UnboundLocalError /\
  Engine.evaluate xv (Engine.set_interp true e) jr jphi jz angler anglephi anglez = Raise UnboundLocalError /\
  Engine.Freqs (Engine.set_interp true e) jr jphi jz = Raise UnboundLocalError.
Proof. repeat split. Qed.

(** C10: every successful call of [_xvFreqs] (either value of [point]) and of
    [_Freqs] returns [Omegaphi = sign(Jphi) * Omegaz] for the returned
    [Omegaz]; in particular [Omegaphi = 0] when [Jphi = 0]. *)
Theorem omegaphi_sign_omegaz
    (xv : Engine.tlocals -> Q -> Q -> Q -> list Q -> list Q -> list Q -> bool -> list (list Q))
    (e : Engine.engine) (jr jphi jz : Q) (angler anglephi anglez : list Q) (point : bool) :
  (forall xvr Or Ophi Oz,
     Engine.xvFreqs xv e jr jphi jz angler anglephi anglez point = Ok (xvr, Or, Ophi, Oz) ->
     Ophi = Qsign jphi * Oz /\ (jphi == 0 -> Ophi == 0)) /\
  (forall Or Ophi Oz, Engine.Freqs e jr jphi jz = Ok (Or, Ophi, Oz) ->
     Ophi = Qsign jphi * Oz /\ (jphi == 0 -> Ophi == 0)).
Proof.
  assert (Hs : forall Oz, jphi == 0 -> Qsign jphi * Oz == 0).
  { intros Oz H. unfold Qsign.
    destruct (Qlt_bool 0 jphi) eqn:B1;
      [apply Qlt_bool_true in B1; rewrite H in B1; discriminate|].
    destruct (Qlt_bool jphi 0) eqn:B2;
      [apply Qlt_bool_true in B2; rewrite H in B2; discriminate|].
    reflexivity. }
  split.
  - intros xvr Or Ophi Oz H. unfold Engine.xvFreqs in H.
    destruct (negb (Engine.e_interp e)); [destruct (Engine.lookup (Engine.e_tori e) jr jphi jz)|];
      simpl in H; try discriminate.
    injection H as _ _ <- <-. split; [reflexivity | apply Hs].
  - intros Or Ophi Oz H. unfold Engine.Freqs in H.
    destruct (negb (Engine.e_interp e)); [destruct (Engine.lookup_Ls (Engine.e_tori e) jr jphi jz)|];
      simpl in H; try discriminate.
    injection H as _ <- <-. split; [reflexivity | apply Hs].
Qed.

Lemma omegaphi_sign_omegaz_witness :
  Engine.xvFreqs xv_zero engine_two 1 1 0 [0] [0] [0] true = Ok ([], 1, 1 * (3 # 4), 3 # 4) /\
  (1 * (3 # 4) = Qsign 1 * (3 # 4) /\ (1 == 0 -> 1 * (3 # 4) == 0)).
Proof.
  split; [reflexivity|].
  apply (proj1 (omegaphi_sign_omegaz xv_zero engine_two 1 1 0 [0] [0] [0] true) [] 1 (1 * (3 # 4)) (3 # 4)).
  reflexivity.
Defined.




(** C5: the reflection of [_create_rgrid] is off by one node for an odd
    [nta].  For [nta = 5] the slice assignment broadcasts the
    single solved node [r(2 pi/5)] into both nodes of the second half, so
    [r(6 pi/5) = r(2 pi/5)] while its mirror angle [4 pi/5] holds [rap];
    the two differ. *)
Lemma rgrid_reflection_odd_counterexample :
  exists row, Rgrid.create_rgrid 5 100 (1 # 1000000000000) false [tA] = Ok [row] /\
    nth 3 (Rgrid.thetaa 5) 0 + nth 2 (Rgrid.thetaa 5) 0 == 2 * pi_f /\
    nth 3 row 0 = nth 1 row 0 /\ nth 2 row 0 = Rgrid.t_rap tA /\ nth 1 row 0 < Rgrid.t_rap tA.
Proof.
  eexists. split; [vm_compute; reflexivity|].
  split; [vm_compute; reflexivity|].
  split; [vm_compute; reflexivity|].
  split; vm_compute; reflexivity.
Qed.

(** X17: for an even [nta = 2m] and at least one torus, there is one stored
    row per torus,
    each with [nta] entries satisfying [r(theta_k) = r(theta_(nta-k))] for
    [0 < k < nta], where [theta_k + theta_(nta-k) = 2 pi]. *)
Theorem rgrid_reflection (m maxiter : nat) (tol : Q) (bisect : bool) (ts : list Rgrid.torus) :
  (1 <= m)%nat -> ts <> [] ->
  (exists rows, Rgrid.create_rgrid (2 * m) maxiter tol bisect ts = Ok rows /\
     length rows = length ts /\
     Forall (fun row => length row = (2 * m)%nat /\
               forall k, (0 < k < 2 * m)%nat -> nth k row 0 = nth (2 * m - k) row 0) rows) /\
  (forall k, (0 < k < 2 * m)%nat ->
     nth k (Rgrid.thetaa (2 * m)) 0 + nth (2 * m - k) (Rgrid.thetaa (2 * m)) 0 == 2 * pi_f).
Proof.
  intros Hm Hts. split.
  - destruct (RgridFacts.create_rgrid_even m maxiter tol bisect ts Hm Hts) as [rows [E F]].
    exists rows. split; [exact E|]. split; [symmetry; apply (Forall2_length F)|].
    eapply RgridFacts.Forall2_Forall_r; [|exact F].
    intros t row [rs [Hl [-> _]]]. split.
    + apply RgridFacts.reflect_length; assumption.
    + intros k [Hk1 Hk2]. apply RgridFacts.reflect_symmetric; assumption.
  - intros k [Hk1 Hk2].
    rewrite !RgridFacts.thetaa_nth by lia.
    replace (Z.of_nat (2 * m - k)) with (Z.of_nat (2 * m) - Z.of_nat k)%Z by lia.
    unfold Z.sub. rewrite inject_Z_plus, inject_Z_opp.
    set (n := inject_Z (Z.of_nat (2 * m))).
    assert (Hn : ~ n == 0) by (unfold n, Qeq; simpl; lia).
    field. exact Hn.
Qed.

Lemma rgrid_reflection_witness :
  (exists rows, Rgrid.create_rgrid (2 * 2) 100 (1 # 1000000000000) false [tA] = Ok rows /\
     length rows = length [tA] /\
     Forall (fun row => length row = (2 * 2)%nat /\
               forall k, (0 < k < 2 * 2)%nat -> nth k row 0 = nth (2 * 2 - k) row 0) rows) /\
  (forall k, (0 < k < 2 * 2)%nat ->
     nth k (Rgrid.thetaa (2 * 2)) 0 + nth (2 * 2 - k) (Rgrid.thetaa (2 * 2)) 0 == 2 * pi_f).
Proof.
  apply (rgrid_reflection 2 100 (1 # 1000000000000) false [tA]); [lia | discriminate].
Defined.

(** C7: after the torus mapping every torus stores [jr = mean(jra)] over its
    table nodes (the forward value kept as [jr_orig]),
    [Omegar = Omegar_forward / mean(djradjr)] (the forward value kept as
    [Omegar_orig]) and [Omegaz = (Omegaz_forward / Omegar_forward) * Omegar],
    that is [Omegaz_forward / mean(djradjr)]: the same rescaling. *)
Theorem refine_mean_rescale (l : list (Q * Q * Q * list Q * list Q)) :
  Forall (fun '(_, Or, _, _, _) => ~ Or == 0) l ->
  Forall2 (fun '(jr, Or, Oz, jra, djr) s =>
     Refine.s_jr s = mean jra /\ Refine.s_jr_orig s = jr /\
     Refine.s_Omegar s = Or / mean djr /\ Refine.s_Omegar_orig s = Or /\
     Refine.s_Omegaz_orig s = Oz /\ Refine.s_OmegazoverOmegar s = Oz / Or /\
     Refine.s_Omegaz s = Refine.s_OmegazoverOmegar s * Refine.s_Omegar s /\
     Refine.s_Omegaz s == Oz / mean djr) l (Refine.refine_all l).
Proof.
  induction l as [|[[[[jr Or] Oz] jra] djr] l IH]; intros H; [constructor|].
  inversion H as [|x l' HOr Hl]; subst.
  constructor; [|apply IH; exact Hl].
  unfold Refine.refine. cbn.
  repeat split; try reflexivity.
  unfold Qdiv. transitivity (Oz * (/ Or * Or) * / mean djr); [ring|].
  rewrite (Qmult_comm (/ Or) Or), Qmult_inv_r by exact HOr. ring.
Qed.

Lemma refine_mean_rescale_witness :
  Forall2 (fun '(jr, Or, Oz, jra, djr) s =>
     Refine.s_jr s = mean jra /\ Refine.s_jr_orig s = jr /\
     Refine.s_Omegar s = Or / mean djr /\ Refine.s_Omegar_orig s = Or /\
     Refine.s_Omegaz_orig s = Oz /\ Refine.s_OmegazoverOmegar s = Oz / Or /\
     Refine.s_Omegaz s = Refine.s_OmegazoverOmegar s * Refine.s_Omegar s /\
     Refine.s_Omegaz s == Oz / mean djr)
    [(1, 2, 1, [1; 3], [2; 2])] (Refine.refine_all [(1, 2, 1, [1; 3], [2; 2])]).
Proof.
  apply refine_mean_rescale. constructor; [|constructor].
  intro Hc. vm_compute in Hc. discriminate Hc.
Defined.

(** C8 (counterexample): with the default [setup_interp=False] an [nSn]
    coefficient of magnitude [1e-17], below the [1e-16] floor, is stored as
    it is, not zeroed. *)
Lemma fourier_floor_off_counterexample :
  Qabs (1 # 100000000000000000) < 1 # 10000000000000000 /\
  fst (fst (Fourier.post_process false 4 [1 # 100000000000000000] [0; 0] [0; 0]))
    = [1 # 100000000000000000] /\
  ~ (1 # 100000000000000000 == 0).
Proof.
  split; [vm_compute; reflexivity|]. split; [reflexivity|].
  intro Hc. vm_compute in Hc. discriminate Hc.
Qed.

(** C8 (amended): only with [setup_interp=True] are the coefficients below
    the floor ([1e-16] for [nSn], [1e-15] for [dSn/dJr] and [dSn/dL]) set to
    zero, before the division of [dSn/dJr] and [dSn/dL] by the harmonic number
    [n = k+1]; with [setup_interp=False] [nSn] is kept as it is and the
    other two are only divided by [n]. *)
Theorem fourier_floor (nta : nat) (nSn dJ dL : list Q) :
  (let '(nSn1, dJ1, dL1) := Fourier.post_process true nta nSn dJ dL in
   (forall k, nth k nSn1 0 = Fourier.floor_zero (1 # 10000000000000000) (nth k nSn 0)) /\
   (forall k, (k < Nat.div nta 2)%nat ->
      nth k dJ1 0 == Fourier.floor_zero (1 # 1000000000000000) (nth k dJ 0) / inject_Z (Z.of_nat (S k))) /\
   (forall k, (k < Nat.div nta 2)%nat ->
      nth k dL1 0 == Fourier.floor_zero (1 # 1000000000000000) (nth k dL 0) / inject_Z (Z.of_nat (S k))) /\
   (forall k, Qabs (nth k nSn 0) < 1 # 10000000000000000 -> nth k nSn1 0 = 0) /\
   (forall k, Qabs (nth k dJ 0) < 1 # 1000000000000000 -> nth k dJ1 0 == 0) /\
   (forall k, Qabs (nth k dL 0) < 1 # 1000000000000000 -> nth k dL1 0 == 0)) /\
  (let '(nSn1, dJ1, dL1) := Fourier.post_process false nta nSn dJ dL in
   nSn1 = nSn /\
   (forall k, (k < Nat.div nta 2)%nat -> nth k dJ1 0 == nth k dJ 0 / inject_Z (Z.of_nat (S k))) /\
   (forall k, (k < Nat.div nta 2)%nat -> nth k dL1 0 == nth k dL 0 / inject_Z (Z.of_nat (S k)))).
Proof.
  assert (Hz : forall fl k l, 0 < fl -> Qabs (nth k l 0) < fl ->
            nth k (map (Fourier.floor_zero fl) l) 0 = 0).
  { intros fl k l Hfl H.
    rewrite FourierFacts.nth_map_0.
    - unfold Fourier.floor_zero. rewrite (Qlt_bool_complete _ _ H). reflexivity.
    - unfold Fourier.floor_zero. rewrite (Qlt_bool_complete (Qabs 0) fl Hfl). reflexivity. }
  assert (Hd : forall row k, (k < Nat.div nta 2)%nat ->
            nth k (Fourier.divide_by row (Fourier.harmonics nta)) 0
              == nth k row 0 / inject_Z (Z.of_nat (S k))).
  { intros row k Hk. rewrite FourierFacts.nth_divide_by, FourierFacts.nth_harmonics by exact Hk.
    reflexivity. }
  assert (H0 : forall row k, nth k row 0 = 0 ->
            nth k (Fourier.divide_by row (Fourier.harmonics nta)) 0 == 0).
  { intros row k H. rewrite FourierFacts.nth_divide_by, H. unfold Qdiv. apply Qmult_0_l. }
  split; cbn [Fourier.post_process].
  - split; [|split; [|split; [|split; [|split]]]].
    + intros k. apply FourierFacts.nth_map_0. reflexivity.
    + intros k Hk. rewrite Hd by exact Hk. rewrite FourierFacts.nth_map_0 by reflexivity. reflexivity.
    + intros k Hk. rewrite Hd by exact Hk. rewrite FourierFacts.nth_map_0 by reflexivity. reflexivity.
    + intros k H. apply Hz; [reflexivity | exact H].
    + intros k H. apply H0, Hz; [reflexivity | exact H].
    + intros k H. apply H0, Hz; [reflexivity | exact H].
  - split; [reflexivity|]. split; intros k Hk; apply Hd; exact Hk.
Qed.

(* ---------------------------------------------------------------------- *)
(** * Further properties of the code *)

Lemma Qabs_Qsign_le (x y : Q) : 0 <= y -> Qabs (Qsign x * y) <= y.
Proof.
  intro Hy. unfold Qsign.
  destruct (Qlt_bool 0 x); [|destruct (Qlt_bool x 0)];
    rewrite Qabs_Qmult, Qabs_pos with (x := y) by exact Hy.
  - rewrite Qabs_pos by (vm_compute; discriminate). rewrite Qmult_1_l. apply Qle_refl.
  - rewrite Qabs_neg by (vm_compute; discriminate).
    setoid_replace (- (-1)) with 1 by reflexivity. rewrite Qmult_1_l. apply Qle_refl.
  - rewrite Qabs_pos by apply Qle_refl. rewrite Qmult_0_l. exact Hy.
Qed.

Lemma nth_map_lt {A B : Type} (f : A -> B) (l : list A) (i : nat) (d : B) (d' : A) :
  (i < length l)%nat -> nth i (map f l) d = f (nth i l d').
Proof. intro H. rewrite (nth_indep _ d (f d')) by (rewrite length_map; exact H). apply map_nth. Qed.


Module RgridMore.
Import Rgrid RgridInv RgridFacts.

Lemma div2_odd (m : nat) : Nat.div (2 * m + 1) 2 = m.
Proof. rewrite Nat.add_comm, Nat.mul_comm, Nat.div_add by lia. reflexivity. Qed.

Lemma mapM_raise {A B : Type} (R : torus -> A -> Prop) (f : A -> result B) (e : PyExc)
    (ts : list torus) (g : list A) :
  (forall t x, R t x -> f x = Raise e) -> Forall2 R ts g -> ts <> [] -> mapM f g = Raise e.
Proof.
  intros Hf H Hne. destruct H as [|t x ts' g' HR _]; [contradiction|].
  cbn [mapM]. rewrite (Hf t x HR). reflexivity.
Qed.

End RgridMore.

Module SingleFacts.
Import Single.

Lemma half_bounds (n : nat) : (2 * Nat.div n 2 <= n <= 2 * Nat.div n 2 + 1)%nat.
Proof. pose proof (Nat.div_mod_eq n 2). pose proof (Nat.mod_upper_bound n 2 ltac:(lia)). lia. Qed.

Lemma reflect_shape (n : nat) (x : list Q) :
  length x = n ->
  reflect n x = Ok (firstn (Nat.div n 2 + 1) x ++ firstn (n - 1 - Nat.div n 2) (skipn (Nat.div n 2) (rev x))).
Proof.
  intro Hl. pose proof (half_bounds n).
  unfold reflect, assign_tail, rev_slice. rewrite length_rev, Hl.
  rewrite length_firstn, length_skipn, length_rev, Hl.
  replace (Nat.min (n - 1 - Nat.div n 2) (n - Nat.div n 2)) with (n - (Nat.div n 2 + 1))%nat by lia.
  rewrite Nat.eqb_refl. reflexivity.
Qed.

Lemma reflect_nth (n : nat) (x : list Q) (k : nat) :
  length x = n -> (k < n)%nat ->
  nth k (firstn (Nat.div n 2 + 1) x ++ firstn (n - 1 - Nat.div n 2) (skipn (Nat.div n 2) (rev x))) 0
  = if (k <=? Nat.div n 2)%nat then nth k x 0 else nth (n - k) x 0.
Proof.
  intros Hl Hk. pose proof (half_bounds n).
  destruct (Nat.leb_spec k (Nat.div n 2)).
  - rewrite app_nth1 by (rewrite length_firstn; lia).
    rewrite nth_firstn. destruct (Nat.ltb_spec k (Nat.div n 2 + 1)); [reflexivity | lia].
  - rewrite app_nth2 by (rewrite length_firstn; lia).
    rewrite length_firstn. replace (Nat.min (Nat.div n 2 + 1) (length x)) with (Nat.div n 2 + 1)%nat by lia.
    rewrite nth_firstn. destruct (Nat.ltb_spec (k - (Nat.div n 2 + 1)) (n - 1 - Nat.div n 2)); [|lia].
    rewrite nth_skipn, rev_nth by lia. f_equal. lia.
Qed.

(** The reflection: shape, kept half, symmetry, and independence from the
    entries it overwrites. *)
Lemma reflect_props (ntr : nat) (x : list Q) :
  length x = ntr ->
  exists y, reflect ntr x = Ok y /\ length y = ntr /\
    firstn (Nat.div ntr 2 + 1) y = firstn (Nat.div ntr 2 + 1) x /\
    (forall k, (0 < k < ntr)%nat -> nth k y 0 = nth (ntr - k) y 0) /\
    (forall x', length x' = ntr -> firstn (Nat.div ntr 2 + 1) x' = firstn (Nat.div ntr 2 + 1) x ->
       reflect ntr x' = Ok y).
Proof.
  intro Hl. pose proof (half_bounds ntr). set (h := Nat.div ntr 2) in *.
  eexists. split; [apply reflect_shape; exact Hl|].
  split; [rewrite length_app, !length_firstn, length_skipn, length_rev, Hl; lia|].
  split; [destruct (Nat.eq_dec ntr 0) as [E0|E0];
          [rewrite E0; cbn [Nat.sub firstn]; rewrite app_nil_r, firstn_firstn; f_equal; lia|];
          rewrite firstn_app, firstn_firstn, length_firstn; fold h;
          replace (h + 1 - Nat.min (h + 1) (length x))%nat with O by lia;
          cbn [firstn]; rewrite app_nil_r; f_equal; lia|].
  split.
  - intros k Hk. rewrite !reflect_nth by (assumption || lia). fold h.
    destruct (Nat.leb_spec k h), (Nat.leb_spec (ntr - k) h).
    + replace (ntr - k)%nat with k by lia. reflexivity.
    + f_equal. lia.
    + reflexivity.
    + lia.
  - intros x' Hl' Hf. rewrite reflect_shape by exact Hl'. fold h. f_equal.
    rewrite Hf, !skipn_rev, Hl, Hl'. f_equal. f_equal.
    assert (E : forall l : list Q, firstn (ntr - h) l = firstn (ntr - h) (firstn (h + 1) l))
      by (intro l; rewrite firstn_firstn; f_equal; lia).
    rewrite (E x'), (E x), Hf. reflexivity.
Qed.

Lemma solve_half_length (brentq : Q -> Q -> Q -> Q) (newton : Q -> Q -> option Q)
    (n : nat) (un : bool) (rp ra : Q) (tras : list Q) :
  forall ii tr, length (solve_half brentq newton n un rp ra ii tras tr) = length tras.
Proof.
  induction tras as [|t tras IH]; intros ii tr; cbn [solve_half length]; [reflexivity|].
  rewrite IH; reflexivity.
Qed.

Lemma solve_half_fixed (brentq : Q -> Q -> Q -> Q) (newton : Q -> Q -> option Q)
    (n : nat) (un : bool) (rp ra : Q) (tras : list Q) :
  forall ii tr k, (k < length tras)%nat -> (ii + k = 0 \/ ii + k = Nat.div n 2)%nat ->
  nth k (solve_half brentq newton n un rp ra ii tras tr) 0 = if (ii + k =? 0)%nat then rp else ra.
Proof.
  induction tras as [|t tras IH]; intros ii tr k Hk Hc; cbn [length] in Hk; [lia|].
  destruct k as [|k]; cbn [solve_half nth].
  - rewrite Nat.add_0_r in *. destruct (Nat.eqb_spec ii 0); [reflexivity|].
    destruct Hc as [Hc|Hc]; [lia|]. rewrite Hc, Nat.eqb_refl. reflexivity.
  - replace (ii + S k)%nat with (S ii + k)%nat in * by lia. apply IH; lia.
Qed.

End SingleFacts.

Module AngleFacts.
Import AngleSolve AngleSolveInv.

Lemma maxdar_pos : 0 < maxdar.
Proof. vm_compute. reflexivity. Qed.

Lemma two_pi_pos : 0 < 2 * pi_f.
Proof. vm_compute. reflexivity. Qed.

Lemma newton_elt_step (ta dta : Q -> Q) (tol : Q) (e : aelt) :
  a_r (newton_elt ta dta tol e) = a_r e /\
  Qabs (a_ra (newton_elt ta dta tol e) - a_ra e) <= maxdar /\
  (a_un e = false -> newton_elt ta dta tol e = e).
Proof.
  unfold newton_elt. destruct (a_un e) eqn:Eu.
  - cbn [a_r a_ra]. split; [reflexivity|]. split; [|discriminate].
    set (dar := - wrap (a_tar e - a_r e) / dta (a_ra e)).
    setoid_replace (a_ra e + (if Qlt_bool maxdar (Qabs dar) then Qsign dar * maxdar else dar) - a_ra e)
      with (if Qlt_bool maxdar (Qabs dar) then Qsign dar * maxdar else dar) by ring.
    destruct (Qlt_bool maxdar (Qabs dar)) eqn:E.
    + apply Qabs_Qsign_le, Qlt_le_weak, maxdar_pos.
    + apply Qlt_bool_false; exact E.
  - split; [reflexivity|]. split; [|reflexivity].
    setoid_replace (a_ra e - a_ra e) with 0 by ring. apply Qlt_le_weak, maxdar_pos.
Qed.

Lemma newton_rel_refl (k : nat) (es : list aelt) :
  Forall2 (fun e e' => a_r e' = a_r e /\
             Qabs (a_ra e' - a_ra e) <= inject_Z (Z.of_nat k) * maxdar /\
             (a_un e = false -> e' = e)) es es.
Proof.
  induction es as [|e es IHes]; constructor; [|exact IHes].
  split; [reflexivity|]. split; [|reflexivity].
  setoid_replace (a_ra e - a_ra e) with 0 by ring.
  apply Qmult_le_0_compat; [|apply Qlt_le_weak, maxdar_pos].
  unfold Qle; cbn; lia.
Qed.

Lemma bisect_elt_step (ta : Q -> Q) (tol dar : Q) (e : aelt) :
  0 < dar -> (a_un e = true -> 0 <= a_trymin e /\ a_trymin e + dar <= 2 * pi_f) ->
  (a_un e = false -> bisect_elt ta tol (dar * (1 # 2)) e = e) /\
  (a_un e = true -> 0 < a_ra (bisect_elt ta tol (dar * (1 # 2)) e) < 2 * pi_f /\
     (a_un (bisect_elt ta tol (dar * (1 # 2)) e) = true ->
        0 <= a_trymin (bisect_elt ta tol (dar * (1 # 2)) e) /\
        a_trymin (bisect_elt ta tol (dar * (1 # 2)) e) + dar * (1 # 2) <= 2 * pi_f)).
Proof.
  intros Hd Hi. unfold bisect_elt. destruct (a_un e) eqn:Eu; [|split; [reflexivity | discriminate]].
  destruct (Hi eq_refl) as [H1 H2]. split; [discriminate|]. intros _.
  cbn [a_ra a_un a_trymin]. split; [split; lra|]. intros _.
  destruct (Qlt_bool _ _); split; lra.
Qed.

Lemma Forall2_map_step (R R' : aelt -> aelt -> Prop) (f : aelt -> aelt) (l0 l : list aelt) :
  (forall e0 e, R e0 e -> R' e0 (f e)) -> Forall2 R l0 l -> Forall2 R' l0 (map f l).
Proof. intros Hf H. induction H; constructor; auto. Qed.

Lemma bis_inv_step (ta : Q -> Q) (tol dar : Q) (e0 e : aelt) :
  0 < dar -> bis_inv dar e0 e -> bis_inv (dar * (1 # 2)) e0 (bisect_elt ta tol (dar * (1 # 2)) e).
Proof.
  intros Hd [Hf Ht]. split.
  - intro H0. rewrite (Hf H0). unfold bisect_elt. rewrite H0. reflexivity.
  - intro H0. destruct (Ht H0) as [Hr Hi].
    destruct (bisect_elt_step ta tol dar e Hd Hi) as [S0 S1].
    destruct (a_un e) eqn:Eu.
    + apply S1; reflexivity.
    + rewrite (S0 eq_refl). split; [exact Hr|]. rewrite Eu. discriminate.
Qed.

Lemma bisect_loop_final (ta : Q -> Q) (maxiter : nat) (tol : Q) (es0 : list aelt) :
  forall fuel cntr dar es, 0 < dar -> Forall2 (bis_inv dar) es0 es ->
  Forall2 bis_final es0 (bisect_loop ta maxiter tol fuel cntr dar es).
Proof.
  assert (Hfin : forall dar l, Forall2 (bis_inv dar) es0 l -> Forall2 bis_final es0 l).
  { intros dar l. apply Forall2_impl. intros e0 e [Hf Ht]. split; [exact Hf|].
    intro H0. apply Ht; exact H0. }
  induction fuel as [|fuel IH]; intros cntr dar es Hd H; cbn [bisect_loop]; [eapply Hfin; exact H|].
  assert (Hd' : 0 < dar * (1 # 2)) by lra.
  assert (H' : Forall2 (bis_inv (dar * (1 # 2))) es0 (map (bisect_elt ta tol (dar * (1 # 2))) es))
    by (eapply Forall2_map_step; [|exact H]; intros e0 e; apply bis_inv_step; exact Hd).
  destruct (negb _); [eapply Hfin; exact H'|].
  destruct (maxiter <? S cntr)%nat; [eapply Hfin; exact H' | apply IH; assumption].
Qed.

End AngleFacts.

Module GridFacts.
Import Engine Grid.

Lemma engine_of_L_eq (Ls jrs : list Q) (locs : list tlocals) :
  Forall (fun t => tr_L t = tr_Ls t) (e_tori (engine_of Ls Ls jrs locs)).
Proof.
  cbn [e_tori engine_of]. revert Ls locs.
  induction jrs as [|jr jrs IH]; intros [|l Ls] [|tl locs]; cbn [combine map]; constructor; [reflexivity|].
  apply IH.
Qed.

Lemma lookup_eq_lookup_Ls (tori : list trec) (jr jphi jz : Q) :
  Forall (fun t => tr_L t = tr_Ls t) tori -> lookup tori jr jphi jz = lookup_Ls tori jr jphi jz.
Proof.
  intro HF. unfold lookup, lookup_Ls.
  destruct (nearest tori jr) as [t|ex] eqn:En; cbn [bind]; [|reflexivity].
  apply EngineFacts.nearest_In in En. rewrite Forall_forall in HF. rewrite (HF t En). reflexivity.
Qed.

Lemma transpose_tile (v : list Q) (n : nat) :
  (1 <= n)%nat -> transpose (tile v n) = map (fun j => repeat (nth j v 0) n) (seq 0 (length v)).
Proof.
  intro Hn. destruct n as [|n]; [lia|]. unfold tile. cbn [repeat transpose].
  apply map_ext. intro j. change (v :: repeat v n) with (repeat v (S n)). rewrite map_repeat. reflexivity.
Qed.

Lemma length_concat_uniform (m : nat) (rows : list (list Q)) :
  Forall (fun r => length r = m) rows -> length (concat rows) = (length rows * m)%nat.
Proof.
  induction 1 as [|r rows Hr _ IH]; [reflexivity|]. cbn [concat length]. rewrite length_app, IH, Hr. lia.
Qed.

Lemma nth_concat_uniform (m : nat) (rows : list (list Q)) (i j : nat) :
  Forall (fun r => length r = m) rows -> (i < length rows)%nat -> (j < m)%nat ->
  nth (i * m + j) (concat rows) 0 = nth j (nth i rows []) 0.
Proof.
  intros HF. revert i. induction HF as [|r rows Hr _ IH]; intros i Hi Hj; cbn [length] in Hi; [lia|].
  cbn [concat]. destruct i as [|i].
  - cbn [nth Nat.mul]. rewrite app_nth1 by lia. reflexivity.
  - rewrite app_nth2 by lia. rewrite Hr. replace (S i * m + j - m)%nat with (i * m + j)%nat by lia.
    apply IH; lia.
Qed.

Lemma length_flatten_T_tile (v : list Q) (n : nat) :
  length (flatten (transpose (tile v n))) = (n * length v)%nat.
Proof.
  destruct n as [|n]; [reflexivity|]. rewrite transpose_tile by lia. unfold flatten.
  rewrite (length_concat_uniform (S n)); [rewrite length_map, length_seq; lia|].
  apply Forall_forall. intros r Hr. apply in_map_iff in Hr. destruct Hr as [j [<- _]]. apply repeat_length.
Qed.

Lemma nth_flatten_T_tile (v : list Q) (n i j : nat) :
  (i < length v)%nat -> (j < n)%nat -> nth (i * n + j) (flatten (transpose (tile v n))) 0 = nth i v 0.
Proof.
  intros Hi Hj. rewrite transpose_tile by lia. unfold flatten.
  rewrite (nth_concat_uniform n).
  - rewrite (nth_map_lt _ _ _ _ 0%nat) by (rewrite length_seq; exact Hi).
    rewrite seq_nth by exact Hi. cbn [Nat.add]. apply nth_repeat_lt. exact Hj.
  - apply Forall_forall. intros r Hr. apply in_map_iff in Hr. destruct Hr as [k [<- _]]. apply repeat_length.
  - rewrite length_map, length_seq. exact Hi.
  - exact Hj.
Qed.

Lemma length_flatten_tile (w : list Q) (n : nat) : length (flatten (tile w n)) = (n * length w)%nat.
Proof.
  unfold flatten, tile. rewrite (length_concat_uniform (length w)), repeat_length; [reflexivity|].
  apply Forall_forall. intros r Hr. apply repeat_spec in Hr. subst r. reflexivity.
Qed.

Lemma nth_flatten_tile (w : list Q) (n i j : nat) :
  (i < n)%nat -> (j < length w)%nat -> nth (i * length w + j) (flatten (tile w n)) 0 = nth j w 0.
Proof.
  intros Hi Hj. unfold flatten, tile. rewrite (nth_concat_uniform (length w)).
  - rewrite nth_repeat_lt by exact Hi. reflexivity.
  - apply Forall_forall. intros r Hr. apply repeat_spec in Hr. subst r. reflexivity.
  - rewrite repeat_length. exact Hi.
  - exact Hj.
Qed.

Lemma length_zip_with (f : Q -> Q -> Q) (a b : list Q) :
  length (zip_with f a b) = Nat.min (length a) (length b).
Proof. unfold zip_with. rewrite length_map, length_combine. reflexivity. Qed.

Lemma nth_zip_with (f : Q -> Q -> Q) (a b : list Q) (k : nat) :
  (k < length a)%nat -> (k < length b)%nat -> nth k (zip_with f a b) 0 = f (nth k a 0) (nth k b 0).
Proof.
  unfold zip_with. revert a b. induction k as [|k IH]; intros [|x a] [|y b] Ha Hb; cbn [length] in *; try lia.
  - reflexivity.
  - cbn [combine map nth]. apply IH; lia.
Qed.

Lemma linspace_first (a b : Q) (n : nat) : (1 <= n)%nat -> nth 0 (Rgrid.linspace a b n) 0 == a.
Proof.
  intro Hn. destruct n as [|[|n]]; [lia | reflexivity |].
  unfold Rgrid.linspace. cbn [seq map nth Z.of_nat inject_Z]. ring.
Qed.

Lemma linspace_last (a b : Q) (n : nat) : (2 <= n)%nat -> nth (n - 1) (Rgrid.linspace a b n) 0 == b.
Proof.
  intro Hn. destruct n as [|[|n]]; [lia | lia |]. unfold Rgrid.linspace.
  rewrite (nth_map_lt _ _ _ _ 0%nat) by (rewrite length_seq; lia).
  rewrite seq_nth by lia. cbn [Nat.add].
  replace (S (S n) - 1)%nat with (S n) by lia.
  field. unfold Qeq; cbn; lia.
Qed.

Lemma nth_ERRL (Phi rl : Q -> Q) (Ls : list Q) (i : nat) :
  (i < length Ls)%nat ->
  nth i (ERRL Phi rl Ls) 0 =
    Phi (rl (nth i Ls 0)) + nth i Ls 0 * nth i Ls 0 / 2 / (rl (nth i Ls 0) * rl (nth i Ls 0)).
Proof.
  intro Hi. unfold ERRL. rewrite nth_zip_with by (rewrite ?length_map; exact Hi).
  rewrite (nth_map_lt _ _ _ _ 0) by exact Hi. reflexivity.
Qed.

Lemma nth_ERRa (Phi : Q -> Q) (Rinf : Q) (Ls : list Q) (i : nat) :
  (i < length Ls)%nat ->
  nth i (ERRa Phi Rinf Ls) 0 = Phi Rinf + nth i Ls 0 * nth i Ls 0 / 2 / (Rinf * Rinf).
Proof.
  intro Hi. unfold ERRa. rewrite (nth_map_lt _ _ _ _ 0) by exact Hi. reflexivity.
Qed.

Lemma length_ERRL (Phi rl : Q -> Q) (Ls : list Q) : length (ERRL Phi rl Ls) = length Ls.
Proof. unfold ERRL. rewrite length_zip_with, length_map. lia. Qed.

Lemma length_ERRa (Phi : Q -> Q) (Rinf : Q) (Ls : list Q) : length (ERRa Phi Rinf Ls) = length Ls.
Proof. unfold ERRa. rewrite length_map. reflexivity. Qed.

End GridFacts.

(** ** The extra properties *)

(** X1: [opt_func] turns [pt_deg - 3] free coefficients into a polynomial of
    degree [pt_deg] that keeps them from degree 4 on and satisfies the four
    boundary conditions [P(0)=0], [P(1)=1], [P'(0)=1], [P'(1)=1] exactly. *)
Theorem opt_func_constraints (pt_deg : nat) (coeffs : list Q) :
  (3 <= pt_deg)%nat -> length coeffs = (pt_deg - 3)%nat ->
  exists c, OptFunc.ccoeffs pt_deg coeffs = OptFunc.OOk c /\ length c = S pt_deg /\
    skipn 4 c = coeffs /\
    PointTransform.polyval c 0 == 0 /\ PointTransform.polyval c 1 == 1 /\
    PointTransform.polyval (PointTransform.polyder c) 0 == 1 /\
    PointTransform.polyval (PointTransform.polyder c) 1 == 1.
Proof. apply PolyFacts.ccoeffs_shape. Qed.

Lemma opt_func_constraints_witness :
  exists c, OptFunc.ccoeffs 5 [1; 2] = OptFunc.OOk c /\ length c = 6%nat /\ skipn 4 c = [1; 2] /\
    PointTransform.polyval c 0 == 0 /\ PointTransform.polyval c 1 == 1 /\
    PointTransform.polyval (PointTransform.polyder c) 0 == 1 /\
    PointTransform.polyval (PointTransform.polyder c) 1 == 1.
Proof. apply (opt_func_constraints 5 [1; 2]); [lia | reflexivity]. Defined.

(** X2: the start vector of the first fitted torus is accepted by [opt_func]
    ([pt_deg >= 3]), but every later start vector, [coeffs[2::]/coeffs[1]]
    taken from a stored row, has [pt_deg - 1] entries and makes [opt_func]
    raise: [IndexError] for [pt_deg <= 2], [ValueError] otherwise. *)
Theorem opt_func_start_coeffs (pt_deg : nat) (lsq : nat -> list Q -> result (list Q)) (jrs prev : list Q) :
  ((3 <= pt_deg)%nat -> exists c, OptFunc.ccoeffs pt_deg (OptFunc.start_coeffs pt_deg 0 prev) = OptFunc.OOk c) /\
  (forall nE rows, PointSetup.setup_pointtransform lsq pt_deg jrs nE = Ok rows ->
   Forall (fun row => forall ii,
            OptFunc.ccoeffs pt_deg (OptFunc.start_coeffs pt_deg (S ii) (PointTransform.pt_coeffs row)) =
            if (pt_deg <=? 2)%nat then OptFunc.OIndexError else OptFunc.OValueError) rows).
Proof.
  split.
  - intro Hd. unfold OptFunc.start_coeffs. destruct (Nat.eq_dec pt_deg 3) as [->|Hne].
    + eexists; reflexivity.
    + destruct (PolyFacts.ccoeffs_shape pt_deg (0 :: repeat 0 (pt_deg - 4)) Hd) as [c [Hc _]].
      * cbn [length]. rewrite repeat_length. lia.
      * exists c; exact Hc.
  - intros nE rows H. eapply Forall_impl; [|exact (PointSetupFacts.setup_rows_linear _ _ _ _ _ H)].
    intros row Hrow ii. rewrite Hrow. apply PolyFacts.ccoeffs_wrong_length.
    unfold OptFunc.start_coeffs, PointTransform.linear_coeffs. cbn [skipn nth].
    rewrite length_map, repeat_length. reflexivity.
Qed.

(** X3: whenever the setup of the fitted transform returns, a torus with
    [Jr < 1e-10] among the first [nE] gets the identity row, whose stored
    derivative coefficients (all [1.0]) sum to [pt_deg] at [x = 1], while the
    derivative of its stored polynomial is [1] everywhere. *)
Theorem small_jr_deriv_mismatch (pt_deg nE : nat) (lsq : nat -> list Q -> result (list Q)) (jrs : list Q)
    (rows : list PointTransform.ptrow) (k : nat) (jr : Q) :
  PointSetup.setup_pointtransform lsq pt_deg jrs nE = Ok rows -> (k < nE)%nat ->
  nth_error jrs k = Some jr -> jr < 1 # 10000000000 ->
  nth_error rows k = Some (PointTransform.identity_row pt_deg) /\
  PointTransform.polyval (PointTransform.pt_deriv_coeffs (PointTransform.identity_row pt_deg)) 1
    == inject_Z (Z.of_nat pt_deg) /\
  (forall x, PointTransform.polyval
               (PointTransform.polyder (PointTransform.pt_coeffs (PointTransform.identity_row pt_deg))) x == 1).
Proof.
  intros H Hk Ej Hj. split; [eapply PointSetupFacts.setup_small_jr; eauto|]. split.
  - apply PolyFacts.polyval_repeat_1.
  - intro x. cbn [PointTransform.identity_row PointTransform.pt_coeffs PointTransform.polyder
                  PointTransform.polyder_aux].
    rewrite PolyFacts.polyval_cons, PolyFacts.polyval_polyder_aux_zeros.
    cbn [Z.of_nat inject_Z Pos.of_succ_nat]. ring.
Qed.

Lemma small_jr_deriv_mismatch_witness :
  PointSetup.setup_pointtransform (fun _ c => Ok c) 5 [1; 0] 2 =
    Ok [PointSetup.linear_row 5; PointTransform.identity_row 5] /\
  (nth_error [PointSetup.linear_row 5; PointTransform.identity_row 5] 1
     = Some (PointTransform.identity_row 5) /\
   PointTransform.polyval (PointTransform.pt_deriv_coeffs (PointTransform.identity_row 5)) 1 == 5 /\
   (forall x, PointTransform.polyval
               (PointTransform.polyder (PointTransform.pt_coeffs (PointTransform.identity_row 5))) x == 1)).
Proof.
  assert (E : PointSetup.setup_pointtransform (fun _ c => Ok c) 5 [1; 0] 2 =
                Ok [PointSetup.linear_row 5; PointTransform.identity_row 5]) by reflexivity.
  split; [exact E|].
  apply (small_jr_deriv_mismatch 5 2 (fun _ c => Ok c) [1; 0] _ 1 0 E); (lia || reflexivity).
Defined.

(** X4: with an odd [nta = 2m+1] ([m >= 1], [m <> 2]) and at least one
    torus, [_create_rgrid] raises [ValueError] at the reflection: the
    [m] columns right of [nta//2] cannot take the [m-1] reflected ones. *)
Theorem create_rgrid_odd_raises (m maxiter : nat) (tol : Q) (bisect : bool) (ts : list Rgrid.torus) :
  (1 <= m)%nat -> m <> 2%nat -> ts <> [] ->
  Rgrid.create_rgrid (2 * m + 1) maxiter tol bisect ts = Raise ValueError.
Proof.
  intros Hm Hm2 Hts. unfold Rgrid.create_rgrid.
  destruct ts as [|t0 ts0]; [contradiction|]. set (ts := t0 :: ts0) in *.
  set (R := fun (_ : Rgrid.torus) (row : list (Rgrid.nparam * Rgrid.node)) => length row = (2 * m + 1)%nat).
  assert (Hmap : forall f : Rgrid.nparam -> Rgrid.node -> Rgrid.node, forall t row, R t row ->
            R t (map (fun pn => (fst pn, f (fst pn) (snd pn))) row))
    by (intros f t row H; unfold R in *; rewrite length_map; exact H).
  set (g0 := map (Rgrid.init_row (2 * m + 1) tol (Rgrid.damax (2 * m + 1) ts)) ts).
  assert (H0 : Forall2 R ts g0)
    by (apply RgridFacts.Forall2_map_r; intro t; unfold R, Rgrid.init_row;
        rewrite length_map, length_seq; reflexivity).
  destruct (if bisect then (O, g0) else Rgrid.newton_loop maxiter tol (S maxiter) O g0) as [cntr g1] eqn:E.
  assert (H1 : Forall2 R ts g1).
  { destruct bisect.
    - injection E as _ <-. exact H0.
    - change g1 with (snd (cntr, g1)). rewrite <- E.
      apply RgridFacts.newton_loop_Forall2; [apply Hmap | exact H0]. }
  eapply (RgridMore.mapM_raise R); [| | exact Hts].
  - intros t row Hr. unfold R in Hr. unfold Rgrid.reflect_row, Rgrid.half. rewrite RgridMore.div2_odd.
    rewrite length_rev, length_firstn, length_skipn, !length_map, Hr.
    replace (2 * m + 1 - (m + 1))%nat with m by lia.
    replace (Nat.min (m - 1) (2 * m + 1 - 1)) with (m - 1)%nat by lia.
    destruct (Nat.eqb_spec m (m - 1)); [lia|].
    destruct (Nat.eqb_spec (m - 1) 1); [lia|]. reflexivity.
  - destruct (bisect || (maxiter <? cntr)%nat); [|exact H1].
    apply RgridFacts.bisect_loop_Forall2; [apply Hmap|].
    apply RgridFacts.map_grid_Forall2; [apply Hmap | exact H1].
Qed.

Lemma create_rgrid_odd_raises_witness :
  Rgrid.create_rgrid 3 0 (1 # 10) true [tA] = Raise ValueError.
Proof. apply (create_rgrid_odd_raises 1 0 (1 # 10) true [tA]); [lia | lia | discriminate]. Defined.

(** X5: one Newton-Raphson update of [_create_rgrid] moves a node whose
    radius lies in [[rperi, rap]] by at most [maxdr]. *)
Theorem newton_node_step_bounded (tol : Q) (p : Rgrid.nparam) (n : Rgrid.node) :
  Rgrid.p_rperi p <= Rgrid.n_r n <= Rgrid.p_rap p -> 0 <= Rgrid.p_maxdr p ->
  Qabs (Rgrid.n_r (Rgrid.newton_node tol p n) - Rgrid.n_r n) <= Rgrid.p_maxdr p.
Proof.
  intros [Hlo Hhi] Hmx. unfold Rgrid.newton_node.
  destruct (Rgrid.n_un n); cbn [Rgrid.n_r].
  2: { setoid_replace (Rgrid.n_r n - Rgrid.n_r n) with 0 by ring. exact Hmx. }
  set (dr0 := - wrap (Rgrid.n_ta n - Rgrid.p_mta p) / Rgrid.p_dang p (Rgrid.n_r n)).
  set (dr := if Qlt_bool (Rgrid.p_maxdr p) (Qabs dr0) then Qsign dr0 * Rgrid.p_maxdr p else dr0).
  assert (Hdr : Qabs dr <= Rgrid.p_maxdr p).
  { unfold dr. destruct (Qlt_bool (Rgrid.p_maxdr p) (Qabs dr0)) eqn:E.
    - apply Qabs_Qsign_le; exact Hmx.
    - apply Qlt_bool_false; exact E. }
  apply Qabs_Qle_condition in Hdr. destruct Hdr as [Hd1 Hd2].
  apply Qabs_Qle_condition.
  destruct (Qlt_bool (Rgrid.p_rap p) (Rgrid.n_r n + dr)) eqn:E1;
    [apply Qlt_bool_true in E1 | apply Qlt_bool_false in E1];
  match goal with |- context [Qlt_bool ?a ?b] => destruct (Qlt_bool a b) eqn:E2 end;
    [apply Qlt_bool_true in E2 | apply Qlt_bool_false in E2 | apply Qlt_bool_true in E2 | apply Qlt_bool_false in E2];
    split; lra.
Qed.

Lemma newton_node_step_bounded_witness :
  Qabs (Rgrid.n_r (Rgrid.newton_node (1 # 10)
          {| Rgrid.p_ang := fun r => r; Rgrid.p_dang := fun _ => 1; Rgrid.p_mta := 0;
             Rgrid.p_rperi := 1; Rgrid.p_rap := 2; Rgrid.p_maxdr := 1 # 10;
             Rgrid.p_trymin0 := 0; Rgrid.p_dr0 := 0 |}
          {| Rgrid.n_r := 3 # 2; Rgrid.n_ta := 1; Rgrid.n_un := true; Rgrid.n_trymin := 0; Rgrid.n_dr := 0 |})
        - (3 # 2)) <= 1 # 10.
Proof.
  apply (newton_node_step_bounded (1 # 10)
          {| Rgrid.p_ang := fun r => r; Rgrid.p_dang := fun _ => 1; Rgrid.p_mta := 0;
             Rgrid.p_rperi := 1; Rgrid.p_rap := 2; Rgrid.p_maxdr := 1 # 10;
             Rgrid.p_trymin0 := 0; Rgrid.p_dr0 := 0 |}
          {| Rgrid.n_r := 3 # 2; Rgrid.n_ta := 1; Rgrid.n_un := true; Rgrid.n_trymin := 0; Rgrid.n_dr := 0 |});
    cbn [Rgrid.p_rperi Rgrid.p_rap Rgrid.p_maxdr Rgrid.n_r]; [split|]; vm_compute; discriminate.
Defined.

(** X6: for every [ntr], the reflection [x[ntr//2+1:] = x[::-1][ntr//2:-1]]
    of an array of length [ntr] succeeds, keeps the first [ntr//2+1] entries,
    makes the array symmetric ([y[k] = y[ntr-k]] for [0 < k < ntr]) and does
    not depend on the entries it overwrites. *)
Theorem single_reflect (ntr : nat) (x : list Q) :
  length x = ntr ->
  exists y, Single.reflect ntr x = Ok y /\ length y = ntr /\
    firstn (Nat.div ntr 2 + 1) y = firstn (Nat.div ntr 2 + 1) x /\
    (forall k, (0 < k < ntr)%nat -> nth k y 0 = nth (ntr - k) y 0) /\
    (forall x', length x' = ntr -> firstn (Nat.div ntr 2 + 1) x' = firstn (Nat.div ntr 2 + 1) x ->
       Single.reflect ntr x' = Ok y).
Proof. apply SingleFacts.reflect_props. Qed.

Lemma single_reflect_witness :
  exists y, Single.reflect 5 [1; 2; 3; 9; 9] = Ok y /\ length y = 5%nat /\
    firstn 3 y = firstn 3 [1; 2; 3; 9; 9] /\
    (forall k, (0 < k < 5)%nat -> nth k y 0 = nth (5 - k) y 0) /\
    (forall x', length x' = 5%nat -> firstn 3 x' = firstn 3 [1; 2; 3; 9; 9] -> Single.reflect 5 x' = Ok y).
Proof. apply (single_reflect 5 [1; 2; 3; 9; 9]). reflexivity. Defined.

(** X7: in [actionAngleSphericalInverseSingle.__init__] ([ntr = "auto"] is
    128), for [ntr >= 2] the reflected [solvera] has [ntr] entries, starts at
    [rperi] and holds [rap] at node [ntr//2], whatever the root finders return. *)
Theorem single_solvera_endpoints (brentq : Q -> Q -> Q -> Q) (newton : Q -> Q -> option Q)
    (ntr : option nat) (use_newton : bool) (rperi rap : Q) (junk : list Q) :
  (2 <= Single.ntr_of ntr)%nat ->
  length junk = (Single.ntr_of ntr - (Nat.div (Single.ntr_of ntr) 2 + 1))%nat ->
  exists y, Single.solvera brentq newton ntr use_newton rperi rap junk = Ok y /\
    length y = Single.ntr_of ntr /\ nth 0 y 0 = rperi /\ nth (Nat.div (Single.ntr_of ntr) 2) y 0 = rap.
Proof.
  intros Hn Hj. unfold Single.solvera. set (n := Single.ntr_of ntr) in *.
  pose proof (SingleFacts.half_bounds n). set (h := Nat.div n 2) in *.
  set (tras := firstn (h + 1) (Rgrid.thetaa n)).
  assert (Ht : length tras = (h + 1)%nat)
    by (unfold tras, Rgrid.thetaa; rewrite length_firstn, RgridFacts.length_linspace; lia).
  set (x := Single.solve_half brentq newton n use_newton rperi rap 0 tras 0 ++ junk).
  assert (Hx : length x = n) by (unfold x; rewrite length_app, SingleFacts.solve_half_length; lia).
  destruct (SingleFacts.reflect_props n x Hx) as [y [Hy [Hly [Hf _]]]].
  exists y. split; [exact Hy|]. split; [exact Hly|].
  assert (Hnth : forall k, (k <= h)%nat ->
            nth k y 0 = nth k (Single.solve_half brentq newton n use_newton rperi rap 0 tras 0) 0).
  { intros k Hk. rewrite <- (firstn_skipn (h + 1) y), app_nth1 by (rewrite length_firstn; lia).
    fold h in Hf. rewrite Hf. unfold x. rewrite firstn_app, SingleFacts.solve_half_length, Ht, Nat.sub_diag.
    cbn [firstn]. rewrite app_nil_r, nth_firstn. destruct (Nat.ltb_spec k (h + 1)); [reflexivity | lia]. }
  split.
  - rewrite Hnth by lia. rewrite SingleFacts.solve_half_fixed by lia. reflexivity.
  - rewrite Hnth by lia. rewrite SingleFacts.solve_half_fixed by lia. cbn [Nat.add].
    destruct (Nat.eqb_spec h 0); [lia | reflexivity].
Qed.

Lemma single_solvera_endpoints_witness :
  exists y, Single.solvera (fun _ _ _ => 0) (fun _ _ => None) None true 1 2 (repeat 0 63) = Ok y /\
    length y = 128%nat /\ nth 0 y 0 = 1 /\ nth 64 y 0 = 2.
Proof. apply (single_solvera_endpoints (fun _ _ _ => 0) (fun _ _ => None) None true 1 2 (repeat 0 63)); cbn; lia. Defined.

(** X8: in the Newton-Raphson phase of the angle solve of [_xvFreqs], after
    [fuel] iterations every angle [anglera] has moved by at most
    [fuel * 2 pi/101] from where it started, [angler] is never changed, and
    an angle that starts converged is left untouched. *)
Theorem angle_newton_bounded (ta dta : Q -> Q) (maxiter : nat) (tol : Q) (fuel cntr : nat)
    (es : list AngleSolve.aelt) :
  Forall2 (fun e e' => AngleSolve.a_r e' = AngleSolve.a_r e /\
             Qabs (AngleSolve.a_ra e' - AngleSolve.a_ra e) <= inject_Z (Z.of_nat fuel) * AngleSolve.maxdar /\
             (AngleSolve.a_un e = false -> e' = e))
          es (snd (AngleSolve.newton_loop ta dta maxiter tol fuel cntr es)).
Proof.
  revert cntr es. induction fuel as [|fuel IH]; intros cntr es; cbn [AngleSolve.newton_loop].
  - apply AngleFacts.newton_rel_refl.
  - assert (Hstep : forall es',
      Forall2 (fun e e' => AngleSolve.a_r e' = AngleSolve.a_r e /\
             Qabs (AngleSolve.a_ra e' - AngleSolve.a_ra e) <= inject_Z (Z.of_nat fuel) * AngleSolve.maxdar /\
             (AngleSolve.a_un e = false -> e' = e)) (map (AngleSolve.newton_elt ta dta tol) es) es' ->
      Forall2 (fun e e' => AngleSolve.a_r e' = AngleSolve.a_r e /\
             Qabs (AngleSolve.a_ra e' - AngleSolve.a_ra e) <= inject_Z (Z.of_nat (S fuel)) * AngleSolve.maxdar /\
             (AngleSolve.a_un e = false -> e' = e)) es es').
    { intros es' H. remember (map (AngleSolve.newton_elt ta dta tol) es) as m eqn:Em.
      revert es Em. induction H as [|e1 e' m es'' [Hr [Hb Hu]] _ IHF]; intros es Em.
      - destruct es; [constructor | discriminate].
      - destruct es as [|e es]; [discriminate|]. injection Em as E1 Em. subst e1.
        constructor; [|apply IHF; exact Em].
        destruct (AngleFacts.newton_elt_step ta dta tol e) as [Sr [Sb Su]].
        split; [rewrite Hr; exact Sr|]. split.
        + rewrite Nat2Z.inj_succ; unfold Z.succ; rewrite inject_Z_plus.
          setoid_replace (AngleSolve.a_ra e' - AngleSolve.a_ra e)
            with ((AngleSolve.a_ra e' - AngleSolve.a_ra (AngleSolve.newton_elt ta dta tol e)) +
                  (AngleSolve.a_ra (AngleSolve.newton_elt ta dta tol e) - AngleSolve.a_ra e)) by ring.
          eapply Qle_trans; [apply Qabs_triangle|].
          setoid_replace ((inject_Z (Z.of_nat fuel) + inject_Z 1) * AngleSolve.maxdar)
            with (inject_Z (Z.of_nat fuel) * AngleSolve.maxdar + AngleSolve.maxdar) by (cbn [inject_Z]; ring).
          apply Qplus_le_compat; assumption.
        + intro Hf. rewrite <- (Su Hf). apply Hu. rewrite (Su Hf). exact Hf. }
    destruct (negb (existsb AngleSolve.a_un (map (AngleSolve.newton_elt ta dta tol) es)));
      [|destruct (maxiter <? S cntr)%nat].
    + apply Hstep, AngleFacts.newton_rel_refl.
    + apply Hstep, AngleFacts.newton_rel_refl.
    + apply Hstep, IH.
Qed.

(** X9: in the bisection phase of the angle solve of [_xvFreqs], every angle
    that enters unconverged ends with [anglera] strictly inside [(0, 2 pi)],
    and every angle that enters converged keeps its state. *)
Theorem angle_bisect_range (ta : Q -> Q) (maxiter : nat) (tol : Q) (es : list AngleSolve.aelt) :
  Forall2 (fun e e' => (AngleSolve.a_un e = false -> e' = e) /\
                       (AngleSolve.a_un e = true -> 0 < AngleSolve.a_ra e' < 2 * pi_f))
          es (AngleSolve.bisect_loop ta maxiter tol (S maxiter) O (2 * pi_f)
                (map AngleSolve.bisect_start es)).
Proof.
  pose proof AngleFacts.two_pi_pos as Hp.
  cbn [AngleSolve.bisect_loop].
  assert (H1 : Forall2 (AngleSolveInv.bis_inv ((2 * pi_f) * (1 # 2))) es
                 (map (AngleSolve.bisect_elt ta tol (2 * pi_f * (1 # 2))) (map AngleSolve.bisect_start es))).
  { rewrite map_map. apply AngleFacts.Forall2_map_step with (R := eq); [|induction es; constructor; auto].
    intros e0 e <-. split.
    - intro H0. destruct e0 as [r ra tr u tm]. cbn in H0. subst u. reflexivity.
    - intro H0. destruct (AngleFacts.bisect_elt_step ta tol (2 * pi_f) (AngleSolve.bisect_start e0) Hp) as [_ S1].
      + unfold AngleSolve.bisect_start. cbn [AngleSolve.a_un AngleSolve.a_trymin]. rewrite H0.
        intros _. split; lra.
      + unfold AngleSolve.bisect_start at 1 in S1. cbn [AngleSolve.a_un] in S1. rewrite H0 in S1.
        destruct (S1 eq_refl) as [Hr Hi]. split; [exact Hr | exact Hi]. }
  pose proof (AngleFacts.bisect_loop_final ta maxiter tol es maxiter 1 (2 * pi_f * (1 # 2)) _
                ltac:(lra) H1) as HL.
  destruct (negb _); [|destruct (maxiter <? 1)%nat].
  - eapply Forall2_impl; [|exact H1]. intros e0 e [Hf Ht].
    split; [exact Hf | intro H0; apply Ht; exact H0].
  - eapply Forall2_impl; [|exact H1]. intros e0 e [Hf Ht].
    split; [exact Hf | intro H0; apply Ht; exact H0].
  - exact HL.
Qed.

(** X10: with [ra = sqrt(Ra^2 + za^2)] nonzero, the point transformed back
    by [_xvFreqs] lies on the ray of [(Ra, za)] at radius [r]
    ([R^2 + z^2 = r^2], [R za = z Ra]); its radial velocity is [piprime]
    times the isochrone one; the meridional angular momentum is kept
    ([r vt = ra vta]) when [r <> 0]; [R vT = jphi] when [R <> 0]; [phi] is
    [phia]. *)
Theorem point_back_geometry (sqrtf : Q -> Q) (tl : Engine.tlocals) (jphi jz Ra vRa vTa za vza phia : Q) :
  sqrtf (Ra * Ra + za * za) * sqrtf (Ra * Ra + za * za) == Ra * Ra + za * za ->
  ~ sqrtf (Ra * Ra + za * za) == 0 ->
  match PointBack.point_back sqrtf tl jphi jz Ra vRa vTa za vza phia with
  | (R, vR, vT, z, vz, phi) =>
      let ra := sqrtf (Ra * Ra + za * za) in
      let r := PointBack.pt_radius tl ra in
      R * R + z * z == r * r /\ R * za == z * Ra /\
      vR * Ra + vz * za == PointBack.pt_piprime tl ra * (vRa * Ra + vza * za) /\
      (~ r == 0 -> (vR * za - vz * Ra) * r == (vRa * za - vza * Ra) * ra) /\
      (~ R == 0 -> R * vT == jphi) /\ phi = phia
  end.
Proof.
  intros Hs Hnz. unfold PointBack.point_back.
  set (ra := sqrtf (Ra * Ra + za * za)) in *.
  set (r := PointBack.pt_radius tl ra). set (pp := PointBack.pt_piprime tl ra).
  cbv zeta.
  set (vr := (Ra / ra * vRa + za / ra * vza) * pp).
  set (vt := (za / ra * vRa - Ra / ra * vza) * ra / r).
  split; [|split; [|split; [|split; [|split]]]].
  - transitivity (r * r * ((Ra * Ra + za * za) / (ra * ra))); [field; exact Hnz|].
    rewrite <- Hs. field. exact Hnz.
  - field. exact Hnz.
  - transitivity (vr * ((Ra * Ra + za * za) / ra)); [field; exact Hnz|].
    rewrite <- Hs. unfold vr. field. exact Hnz.
  - intro Hr. transitivity (vt * ((Ra * Ra + za * za) / ra) * r); [field; exact Hnz|].
    rewrite <- Hs. unfold vt. field. split; assumption.
  - intro HR. set (RR := Ra / ra * r) in *. field. exact HR.
  - reflexivity.
Qed.

Lemma point_back_geometry_witness :
  match PointBack.point_back (fun _ => 5) tl0 1 1 3 1 1 4 1 0 with
  | (R, vR, vT, z, vz, phi) =>
      let ra := (fun _ => 5) (3 * 3 + 4 * 4) in
      let r := PointBack.pt_radius tl0 ra in
      R * R + z * z == r * r /\ R * 4 == z * 3 /\
      vR * 3 + vz * 4 == PointBack.pt_piprime tl0 ra * (1 * 3 + 1 * 4) /\
      (~ r == 0 -> (vR * 4 - vz * 3) * r == (1 * 4 - 1 * 3) * ra) /\
      (~ R == 0 -> R * vT == 1) /\ phi = 0
  end.
Proof.
  apply (point_back_geometry (fun _ => 5) tl0 1 1 3 1 1 4 1 0).
  - vm_compute. reflexivity.
  - intro Hc. vm_compute in Hc. discriminate Hc.
Defined.

(** X11: whichever transform [__init__] stores ([use_pointtransform] or
    not), the back-transformed radius maps the isochrone turning points
    [ptrperi] and [ptrap] exactly onto [rperi] and [rap]. *)
Theorem pt_radius_turning_points (use_pt : bool) (pt_deg nE : nat) (lsq : nat -> list Q -> result (list Q))
    (jrs : list Q) (rows : list PointTransform.ptrow) :
  PointSetup.init_pointtransform use_pt pt_deg lsq nE jrs = Ok rows ->
  Forall (fun row => forall tl : Engine.tlocals, Engine.tl_ptcoeffs tl = PointTransform.pt_coeffs row ->
            ~ Engine.tl_ptrap tl == Engine.tl_ptrperi tl ->
            PointBack.pt_radius tl (Engine.tl_ptrperi tl) == Engine.tl_rperi tl /\
            PointBack.pt_radius tl (Engine.tl_ptrap tl) == Engine.tl_rap tl) rows.
Proof.
  intro Hinit. eapply Forall_impl; [|exact (PointSetupFacts.init_pointtransform_ends _ _ _ _ _ _ Hinit)].
  intros row [H0 H1] tl Hc Hne. unfold PointBack.pt_radius. rewrite Hc.
  assert (Hd : ~ Engine.tl_ptrap tl - Engine.tl_ptrperi tl == 0) by (intro E; apply Hne; lra).
  split.
  - rewrite (PolyFacts.polyval_Qeq _ _ 0) by (field; exact Hd). rewrite H0. ring.
  - rewrite (PolyFacts.polyval_Qeq _ _ 1) by (field; exact Hd). rewrite H1. ring.
Qed.

Lemma pt_radius_turning_points_witness :
  PointSetup.init_pointtransform false 3 (fun _ c => Ok c) 1 [1] = Ok [PointTransform.weird_row] /\
  Forall (fun row => forall tl : Engine.tlocals, Engine.tl_ptcoeffs tl = PointTransform.pt_coeffs row ->
            ~ Engine.tl_ptrap tl == Engine.tl_ptrperi tl ->
            PointBack.pt_radius tl (Engine.tl_ptrperi tl) == Engine.tl_rperi tl /\
            PointBack.pt_radius tl (Engine.tl_ptrap tl) == Engine.tl_rap tl) [PointTransform.weird_row].
Proof.
  assert (E : PointSetup.init_pointtransform false 3 (fun _ c => Ok c) 1 [1] = Ok [PointTransform.weird_row])
    by reflexivity.
  split; [exact E|]. exact (pt_radius_turning_points false 3 1 (fun _ c => Ok c) [1] _ E).
Defined.

(** X12: on the grid without interpolation ([len(Es) == len(Ls)]), the
    internal [L] of every torus is its [Ls] entry, so [_Freqs] accepts
    exactly the actions [_xvFreqs] accepts and returns the same three
    frequencies (or raises the same exception). *)
Theorem direct_grid_freqs_agree
    (xv_core : Engine.tlocals -> Q -> Q -> Q -> list Q -> list Q -> list Q -> bool -> list (list Q))
    (Es Ls iEs iLs jrs : list Q) (locs : list Engine.tlocals) (jr jphi jz : Q)
    (angler anglephi anglez : list Q) (point : bool) :
  Grid.grid_direct Es Ls = Ok (iEs, iLs) ->
  Engine.Freqs (Grid.engine_of iLs Ls jrs locs) jr jphi jz =
  (r <- Engine.xvFreqs xv_core (Grid.engine_of iLs Ls jrs locs) jr jphi jz angler anglephi anglez point ;;
   let '(_, o_r, o_phi, o_z) := r in Ok (o_r, o_phi, o_z)).
Proof.
  unfold Grid.grid_direct. destruct (negb _); [discriminate|]. intro H. injection H as _ <-.
  unfold Engine.Freqs, Engine.xvFreqs. cbn [Engine.e_interp Grid.engine_of negb].
  rewrite GridFacts.lookup_eq_lookup_Ls by apply GridFacts.engine_of_L_eq.
  destruct (Engine.lookup_Ls _ jr jphi jz) as [t|ex]; reflexivity.
Qed.

Lemma direct_grid_freqs_agree_witness :
  Engine.Freqs (Grid.engine_of [1] [1] [1] [tl0]) 1 1 0 =
  (r <- Engine.xvFreqs xv_zero (Grid.engine_of [1] [1] [1] [tl0]) 1 1 0 [] [] [] true ;;
   let '(_, o_r, o_phi, o_z) := r in Ok (o_r, o_phi, o_z)).
Proof. apply (direct_grid_freqs_agree xv_zero [2] [1] [2] [1] [1] [tl0] 1 1 0 [] [] [] true). reflexivity. Defined.

(** X13: the interpolation grid of [__init__] has [nL * nE] nodes, [L]-major:
    node [i*nE + j] has [L = Ls[i]] and energy
    [ERRL_i + linspace(0,1,nE)[j] * (ERRa_i - ERRL_i)], so [j = 0] is the
    circular-orbit energy [ERRL_i] and [j = nE-1] is [ERRa_i]; [Ls] runs
    from [Lmin = 0.01] to [Rmax vcirc(Rmax)]. *)
Theorem grid_interp_layout (Phi vcirc rl : Q -> Q) (Rmax Rinf : Q) (nE nL : nat) :
  match Grid.grid_interp Phi vcirc rl Rmax Rinf nE nL with
  | (Ls, iEs, iLs) =>
    length Ls = nL /\ length iEs = (nL * nE)%nat /\ length iLs = (nL * nE)%nat /\
    (forall i j, (i < nL)%nat -> (j < nE)%nat ->
       let L := nth i Ls 0 in
       let El := Phi (rl L) + L * L / 2 / (rl L * rl L) in
       let Ea := Phi Rinf + L * L / 2 / (Rinf * Rinf) in
       nth (i * nE + j) iLs 0 = L /\
       nth (i * nE + j) iEs 0 = nth j (Rgrid.linspace 0 1 nE) 0 * (Ea - El) + El /\
       (j = 0%nat -> nth (i * nE + j) iEs 0 == El) /\
       (j = (nE - 1)%nat -> (2 <= nE)%nat -> nth (i * nE + j) iEs 0 == Ea)) /\
    ((1 <= nL)%nat -> nth 0 Ls 0 == Grid.Lmin) /\
    ((2 <= nL)%nat -> nth (nL - 1) Ls 0 == Rmax * vcirc Rmax)
  end.
Proof.
  unfold Grid.grid_interp. set (Ls := Grid.Ls_grid vcirc Rmax nL).
  assert (HL : length Ls = nL) by apply RgridFacts.length_linspace.
  assert (Hlin : length (Rgrid.linspace 0 1 nE) = nE) by apply RgridFacts.length_linspace.
  assert (Hd : length (Grid.zip_with Qminus (Grid.ERRa Phi Rinf Ls) (Grid.ERRL Phi rl Ls)) = nL)
    by (rewrite GridFacts.length_zip_with, GridFacts.length_ERRa, GridFacts.length_ERRL; lia).
  assert (HEL : length (Grid.ERRL Phi rl Ls) = nL) by (rewrite GridFacts.length_ERRL; exact HL).
  split; [exact HL|]. split; [|split; [|split; [|split]]].
  - unfold Grid.internal_Es.
    rewrite !GridFacts.length_zip_with, GridFacts.length_flatten_tile, !GridFacts.length_flatten_T_tile,
      Hlin, Hd, HEL, HL. lia.
  - unfold Grid.internal_Ls. rewrite GridFacts.length_flatten_T_tile, HL. lia.
  - intros i j Hi Hj. cbv zeta.
    assert (Hnode : nth (i * nE + j) (Grid.internal_Es Phi rl Rinf nE Ls) 0 =
        nth j (Rgrid.linspace 0 1 nE) 0 *
          (Phi Rinf + nth i Ls 0 * nth i Ls 0 / 2 / (Rinf * Rinf) -
           (Phi (rl (nth i Ls 0)) + nth i Ls 0 * nth i Ls 0 / 2 / (rl (nth i Ls 0) * rl (nth i Ls 0)))) +
        (Phi (rl (nth i Ls 0)) + nth i Ls 0 * nth i Ls 0 / 2 / (rl (nth i Ls 0) * rl (nth i Ls 0)))).
    { assert (Hk : (i * nE + j < nL * nE)%nat) by nia.
      unfold Grid.internal_Es. fold (length Ls). rewrite HL.
      rewrite GridFacts.nth_zip_with.
      2: { rewrite GridFacts.length_zip_with, GridFacts.length_flatten_tile,
             GridFacts.length_flatten_T_tile, Hlin, Hd. lia. }
      2: { rewrite GridFacts.length_flatten_T_tile, HEL. lia. }
      rewrite GridFacts.nth_zip_with.
      2: { rewrite GridFacts.length_flatten_tile, Hlin. lia. }
      2: { rewrite GridFacts.length_flatten_T_tile, Hd. lia. }
      rewrite <- Hlin at 1. rewrite GridFacts.nth_flatten_tile by lia.
      rewrite !GridFacts.nth_flatten_T_tile by lia.
      rewrite GridFacts.nth_zip_with by (rewrite ?GridFacts.length_ERRa, ?GridFacts.length_ERRL; lia).
      rewrite GridFacts.nth_ERRa, GridFacts.nth_ERRL by lia. reflexivity. }
    split; [|split; [exact Hnode | split]].
    + unfold Grid.internal_Ls. apply GridFacts.nth_flatten_T_tile; lia.
    + intros ->. rewrite Hnode, GridFacts.linspace_first by lia. ring.
    + intros -> H2. rewrite Hnode, GridFacts.linspace_last by lia. ring.
  - intro H1. apply GridFacts.linspace_first. exact H1.
  - intro H2. apply GridFacts.linspace_last. exact H2.
Qed.

(** X14: [vrls[::nE] = 0.0] raises [ValueError] for [nE = 0]; otherwise it
    keeps the length and zeroes exactly the entries at [i*nE + 0], the
    first-energy (circular-orbit) node of each [L] block, leaving the other
    entries unchanged. *)
Theorem zero_step_blocks (nE : nat) (v : list Q) :
  (nE = 0%nat -> Grid.zero_step nE v = Raise ValueError) /\
  ((1 <= nE)%nat -> exists w, Grid.zero_step nE v = Ok w /\ length w = length v /\
     forall i j, (j < nE)%nat -> (i * nE + j < length v)%nat ->
       nth (i * nE + j) w 0 = if (j =? 0)%nat then 0 else nth (i * nE + j) v 0).
Proof.
  split; [intros ->; reflexivity|]. intro Hn. unfold Grid.zero_step.
  destruct (Nat.eqb_spec nE 0); [lia|].
  eexists. split; [reflexivity|]. split.
  - rewrite length_map, length_combine, length_seq. lia.
  - intros i j Hj Hk.
    rewrite (nth_map_lt _ _ _ _ (0%nat, 0)) by (rewrite length_combine, length_seq; lia).
    rewrite combine_nth by (rewrite length_seq; reflexivity).
    rewrite seq_nth by exact Hk. cbn [Nat.add].
    replace (i * nE + j)%nat with (j + i * nE)%nat at 1 by lia.
    rewrite Nat.Div0.mod_add, Nat.mod_small by lia. reflexivity.
Qed.

(** X15: the auxiliary energy of [_jraora] is never below the isochrone
    effective potential [ip(ra) + L2/(2 ra^2)], because [vr2] is clipped at
    [0] before it enters. *)
Theorem jraora_Ea_above_effective (evalPot ip : Q -> Q) (ra E L2 : Q) (ptcoeffs ptderivcoeffs : list Q)
    (rperi rap ptrperi ptrap : Q) :
  (1 # 2) * (L2 * / (ra * ra)) + ip ra <=
  JraOra.aux_Ea evalPot ip ra E L2 ptcoeffs ptderivcoeffs rperi rap ptrperi ptrap.
Proof.
  unfold JraOra.aux_Ea. cbv zeta.
  match goal with
  | |- _ <= (1 # 2) * ((if Qlt_bool ?v 0 then 0 else ?v) * / (?p * ?p) + _) + _ =>
      assert (Hv : 0 <= (if Qlt_bool v 0 then 0 else v))
        by (destruct (Qlt_bool v 0) eqn:E0; [apply Qle_refl | apply Qlt_bool_false; exact E0]);
      assert (Hp : 0 <= / (p * p))
        by (apply Qinv_le_0_compat; destruct (Qlt_le_dec p 0);
            [setoid_replace (p * p) with ((- p) * (- p)) by ring; apply Qmult_le_0_compat; lra
            | apply Qmult_le_0_compat; assumption]);
      assert (Hm : 0 <= (if Qlt_bool v 0 then 0 else v) * / (p * p)) by (apply Qmult_le_0_compat; assumption)
  end.
  lra.
Qed.


